(** * code-scribe: a directory tree rendered as markdown documents

    A shallow embedding of [main.py]: the name filter
    ([should_exclude_directory]), the extension catalogue
    ([discover_extensions]), the file name sanitiser
    ([sanitise_filename]), the markdown renderer
    ([generate_markdown_from_file]), the tree renderer
    ([generate_tree_output]), the conversion pass
    ([generate_markdown_from_directory]), the prompt for the extensions
    ([select_extensions]) and the entry point ([main]).

    Python strings are sequences of Unicode code points; they are lists
    of [N] here.  What [str.lower], [str.isspace] and the regular
    expression classes [\w] and [\s] do on a code point is taken from an
    interface ([Unicode]) that fixes them on ASCII; the statements that
    hold for every string are proved for every implementation of the
    interface, and the concrete tables [py_unicode] are used to evaluate
    the functions on given inputs. *)

From Stdlib Require Import String Ascii.
From Stdlib Require Import NArith ZArith Lia Bool List.
From Stdlib Require Import Sorted Permutation.
Import ListNotations.

Local Open Scope N_scope.
Local Open Scope list_scope.

(** ** Strings *)

Abbreviation char := N (only parsing).
Abbreviation str := (list N) (only parsing).

(** An ASCII literal as a Python string. *)
Definition lit (s : string) : str := map N_of_ascii (list_ascii_of_string s).
Arguments lit s%_string.

Definition str_eqb (a b : str) : bool :=
  if list_eq_dec N.eq_dec a b then true else false.

(** [x in l] for a list of strings. *)
Definition mem (x : str) (l : list str) : bool := existsb (str_eqb x) l.

Definition c_dot : char := 46.
Definition c_slash : char := 47.
Definition c_hyphen : char := 45.
Definition c_underscore : char := 95.
Definition c_newline : char := 10.

(** ** ASCII character tables *)

Definition between (lo hi c : char) : bool := (lo <=? c) && (c <=? hi).

Definition is_ascii (c : char) : bool := c <? 128.

Definition ascii_isalnum (c : char) : bool :=
  between 48 57 c || between 65 90 c || between 97 122 c.

Definition ascii_isspace (c : char) : bool :=
  between 9 13 c || between 28 32 c.

Definition ascii_lower (c : char) : char :=
  if between 65 90 c then c + 32 else c.

(** The class [[a-z0-9_]]. *)
Definition is_lower_word (c : char) : bool :=
  between 97 122 c || between 48 57 c || (c =? c_underscore).

(** What [re.sub(r'[^\w\s-]', '_', x)] leaves of an ASCII string. *)
Definition ascii_kept (c : char) : bool :=
  is_ascii c
  && (ascii_isalnum c || (c =? c_underscore) || ascii_isspace c
      || (c =? c_hyphen)).

(** The same after [lower()]. *)
Definition ascii_kept_lower (c : char) : bool :=
  is_lower_word c || ascii_isspace c || (c =? c_hyphen).

Ltac bool_to_prop :=
  repeat progress
    (rewrite ?andb_true_iff, ?orb_true_iff, ?andb_false_iff, ?orb_false_iff,
       ?N.leb_le, ?N.ltb_lt, ?N.eqb_eq, ?N.leb_gt, ?N.ltb_ge, ?N.eqb_neq in *).

Ltac char_cases :=
  unfold is_lower_word, ascii_lower, ascii_isspace, ascii_isalnum,
    is_ascii in *;
  repeat match goal with
    | |- context [if between ?a ?b ?c then _ else _] =>
        destruct (between a b c) eqn:?
    end;
  unfold between, c_dot, c_slash, c_hyphen, c_underscore in *;
  bool_to_prop; try lia.

(** ** The Unicode database

    [isalnum] is [Py_UNICODE_ISALNUM], which with [_] makes the class
    [\w] of a [str] pattern; [isspace] is [Py_UNICODE_ISSPACE], used both
    by [\s] and by [str.strip]; [lower] is [str.lower].  The laws are the
    ASCII rows of the tables, that lower-casing neither makes nor removes
    a full stop, and that it empties no string. *)

Class Unicode := {
  isalnum : char -> bool;
  isspace : char -> bool;
  lower : str -> str;
  isalnum_ascii : forall c, c < 128 -> isalnum c = ascii_isalnum c;
  isspace_ascii : forall c, c < 128 -> isspace c = ascii_isspace c;
  lower_ascii : forall s,
    forallb is_ascii s = true -> lower s = map ascii_lower s;
  lower_dots : forall s,
    count_occ N.eq_dec (lower s) c_dot = count_occ N.eq_dec s c_dot;
  lower_empty : forall s, lower s = [] -> s = []
}.

(** *** The tables of CPython for U+0000..U+00FF, U+0130 and U+0307

    Outside these code points the tables below answer "not alphanumeric,
    not a space, unchanged by [lower]"; they are used on inputs within
    them only. *)

Definition py_isalnum (c : char) : bool :=
  if c <? 128 then ascii_isalnum c
  else (c =? 170) || between 178 179 c || (c =? 181) || between 185 186 c
       || between 188 190 c || between 192 214 c || between 216 246 c
       || between 248 255 c || (c =? 304).

Definition py_isspace (c : char) : bool :=
  if c <? 128 then ascii_isspace c else (c =? 133) || (c =? 160).

Definition py_lower_char (c : char) : list char :=
  if c <? 128 then [ascii_lower c]
  else if between 192 214 c || between 216 222 c then [c + 32]
  else if c =? 304 then [105; 775]
  else [c].

Definition py_lower (s : str) : str := flat_map py_lower_char s.

Lemma py_isalnum_ascii c : c < 128 -> py_isalnum c = ascii_isalnum c.
Proof.
  intros H. unfold py_isalnum. now rewrite (proj2 (N.ltb_lt c 128) H).
Qed.

Lemma py_isspace_ascii c : c < 128 -> py_isspace c = ascii_isspace c.
Proof.
  intros H. unfold py_isspace. now rewrite (proj2 (N.ltb_lt c 128) H).
Qed.

Lemma py_lower_ascii s :
  forallb is_ascii s = true -> py_lower s = map ascii_lower s.
Proof.
  induction s as [|c s IH]; simpl; [reflexivity|].
  intros H. apply andb_true_iff in H as [Hc Hs].
  rewrite (IH Hs). unfold py_lower_char.
  unfold is_ascii in Hc. now rewrite Hc.
Qed.

Lemma py_lower_char_dots c :
  count_occ N.eq_dec (py_lower_char c) c_dot
  = (if N.eq_dec c c_dot then 1 else 0)%nat.
Proof.
  unfold py_lower_char.
  destruct (N.eq_dec c c_dot) as [->|Hne]; [reflexivity|].
  unfold c_dot in *.
  destruct (N.ltb_spec c 128).
  - unfold ascii_lower, between.
    destruct (N.leb_spec 65 c), (N.leb_spec c 90); simpl;
      destruct (N.eq_dec _ 46); try reflexivity; lia.
  - destruct (between 192 214 c || between 216 222 c); simpl.
    + destruct (N.eq_dec _ 46); [lia | reflexivity].
    + destruct (N.eqb_spec c 304); simpl.
      * reflexivity.
      * destruct (N.eq_dec c 46); [lia | reflexivity].
Qed.

Lemma py_lower_dots s :
  count_occ N.eq_dec (py_lower s) c_dot = count_occ N.eq_dec s c_dot.
Proof.
  induction s as [|c s IH]; [reflexivity|].
  change (py_lower (c :: s)) with (py_lower_char c ++ py_lower s).
  rewrite count_occ_app, IH, py_lower_char_dots.
  cbn [count_occ]. destruct (N.eq_dec c c_dot); reflexivity.
Qed.

Lemma py_lower_empty s : py_lower s = [] -> s = [].
Proof.
  destruct s as [|c s]; [reflexivity|].
  unfold py_lower; cbn [flat_map]. unfold py_lower_char.
  destruct (c <? 128); [discriminate|].
  destruct (between 192 214 c || between 216 222 c); [discriminate|].
  destruct (c =? 304); discriminate.
Qed.

Instance py_unicode : Unicode := {
  isalnum := py_isalnum;
  isspace := py_isspace;
  lower := py_lower;
  isalnum_ascii := py_isalnum_ascii;
  isspace_ascii := py_isspace_ascii;
  lower_ascii := py_lower_ascii;
  lower_dots := py_lower_dots;
  lower_empty := py_lower_empty
}.

(** ** FilenameSanitizer *)

Section Sanitise.
Context {U : Unicode}.

(** [\w]: alphanumeric or underscore. *)
Definition is_word (c : char) : bool := isalnum c || (c =? c_underscore).

(** [[-\s]]: hyphen or white space. *)
Definition is_sep (c : char) : bool := (c =? c_hyphen) || isspace c.

(** [re.sub(r'[^\w\s-]', '_', s)]: each character that is not a word
    character, white space or a hyphen becomes an underscore. *)
Definition sub_invalid (s : str) : str :=
  map (fun c => if is_word c || isspace c || (c =? c_hyphen) then c
                else c_underscore) s.

Fixpoint lstrip (s : str) : str :=
  match s with
  | c :: s' => if isspace c then lstrip s' else s
  | [] => []
  end.

(** [str.strip()]. *)
Definition strip (s : str) : str := rev (lstrip (rev (lstrip s))).

(** [re.sub(r'[-\s]+', '_', s)]: every maximal run of hyphens and white
    space becomes one underscore; [in_run] tells that the previous
    character belonged to the current run. *)
Fixpoint sub_runs (in_run : bool) (s : str) : str :=
  match s with
  | [] => []
  | c :: s' =>
      if is_sep c then
        if in_run then sub_runs true s' else c_underscore :: sub_runs true s'
      else c :: sub_runs false s'
  end.

Definition sanitise_filename (filename : str) : str :=
  let filename := lower (strip (sub_invalid filename)) in
  let filename := sub_runs false filename in
  filename.

End Sanitise.

(** ** Paths and [os.path]

    A path is the list of its components; [Path.name] is the last one
    (the empty string for a path without components, as [Path('.')]). *)

Abbreviation path := (list (list N)) (only parsing).

Definition path_name (p : path) : str := last p [].

(** [s.rfind(c)]: the index of the last occurrence of [c], or [-1]. *)
Fixpoint rfind (c : char) (s : str) : Z :=
  match s with
  | [] => (-1)%Z
  | x :: s' =>
      let r := rfind c s' in
      if (0 <=? r)%Z then (r + 1)%Z
      else if x =? c then 0%Z else (-1)%Z
  end.

(** [s[i:j]], [s[:j]] and [s[i:]] for indices that are not negative. *)
Definition slice (s : str) (i j : Z) : str :=
  firstn (Z.to_nat (j - i)) (skipn (Z.to_nat i) s).

(** [os.path.splitext]: the extension starts at the last dot of the last
    component, unless only dots come before it there. *)
Definition splitext (p : str) : str * str :=
  let sepIndex := rfind c_slash p in
  let dotIndex := rfind c_dot p in
  if (sepIndex <? dotIndex)%Z
     && existsb (fun c => negb (c =? c_dot)) (slice p (sepIndex + 1) dotIndex)
  then (firstn (Z.to_nat dotIndex) p, skipn (Z.to_nat dotIndex) p)
  else (p, []).

(** [s.startswith('.')]. *)
Definition startswith_dot (s : str) : bool :=
  match s with
  | c :: _ => c =? c_dot
  | [] => false
  end.

(** [bool(s)] of a string or a list. *)
Definition truthy {A} (l : list A) : bool :=
  match l with [] => false | _ :: _ => true end.

(** ['/'.join(parts)] *)
Fixpoint join (sep : str) (parts : list str) : str :=
  match parts with
  | [] => []
  | [x] => x
  | x :: rest => x ++ sep ++ join sep rest
  end.

(** The components of a string given to [Path]: split at [/], empty
    components and [.] dropped. *)
Fixpoint split_slash (cur : str) (s : str) : list str :=
  match s with
  | [] => [rev cur]
  | c :: s' =>
      if c =? c_slash then rev cur :: split_slash [] s'
      else split_slash (c :: cur) s'
  end.

Definition path_of_str (s : str) : path :=
  filter (fun x => truthy x && negb (str_eqb x [c_dot])) (split_slash [] s).

(** [p / s] *)
Definition path_div (p : path) (s : str) : path := p ++ path_of_str s.

(** [p.with_name(name)] and [p.parent] *)
Definition with_name (p : path) (name : str) : path := removelast p ++ [name].
Definition parent (p : path) : path := removelast p.

Fixpoint commonprefix (a b : path) : path :=
  match a, b with
  | x :: a', y :: b' => if str_eqb x y then x :: commonprefix a' b' else []
  | _, _ => []
  end.

(** [os.path.relpath(p, start)] *)
Definition relpath (p start : path) : str :=
  let i := length (commonprefix start p) in
  let rel_list := repeat [c_dot; c_dot] (length start - i) ++ skipn i p in
  match rel_list with
  | [] => [c_dot]
  | _ => join [c_slash] rel_list
  end.

(** ** The directory tree

    What [os.scandir] and [os.walk] see below the input directory: the
    children of a directory in the order in which the system lists them.
    [Other] is an entry that is neither a directory nor a regular file.
    The tree has no symbolic links and does not change during a run. *)

#[local] Unset Elimination Schemes.
Inductive entry :=
| File (name : str)
| Dir (name : str) (children : list entry)
| Other (name : str).
#[local] Set Elimination Schemes.

(** Induction on a tree, with the hypothesis for every child. *)
Fixpoint entry_ind (P : entry -> Prop)
    (HF : forall n, P (File n))
    (HD : forall n cs, Forall P cs -> P (Dir n cs))
    (HO : forall n, P (Other n)) (e : entry) : P e :=
  match e with
  | File n => HF n
  | Other n => HO n
  | Dir n cs =>
      HD n cs
        ((fix all (l : list entry) : Forall P l :=
            match l with
            | [] => Forall_nil P
            | c :: l' => Forall_cons c (entry_ind P HF HD HO c) (all l')
            end) cs)
  end.

Definition entry_name (e : entry) : str :=
  match e with File n | Dir n _ | Other n => n end.

Definition is_dir (e : entry) : bool :=
  match e with Dir _ _ => true | _ => false end.

Definition is_file (e : entry) : bool :=
  match e with File _ => true | _ => false end.

(** ** PathFilter *)

Definition default_exclude : list str :=
  [lit ".terraform"; lit "node_modules"; lit ".git"].

Definition should_exclude_directory (p : path) (exclude_dirs : list str)
    : bool :=
  let full_exclude :=
    if truthy exclude_dirs then default_exclude ++ exclude_dirs
    else default_exclude in
  existsb (fun exclude_dir => str_eqb (path_name p) exclude_dir) full_exclude.

(** ** ExtensionCatalog *)

(** A [dict] from strings to counts, in insertion order. *)
Definition dict := list (str * nat).

Fixpoint dict_get (d : dict) (k : str) (default : nat) : nat :=
  match d with
  | [] => default
  | (k', v) :: d' => if str_eqb k' k then v else dict_get d' k default
  end.

Fixpoint dict_set (d : dict) (k : str) (v : nat) : dict :=
  match d with
  | [] => [(k, v)]
  | (k', v') :: d' =>
      if str_eqb k' k then (k', v) :: d' else (k', v') :: dict_set d' k v
  end.

Section Catalog.
Context {U : Unicode}.
Variable exclude_dirs : list str.

(** One turn of the loop of [_scan_directory], for the entry [e] of the
    directory [directory]. *)
Fixpoint scan_entry (directory : path) (e : entry) (extensions : dict) : dict :=
  if should_exclude_directory (directory ++ [entry_name e]) exclude_dirs
  then extensions
  else
    match e with
    | Dir n cs =>
        fold_left (fun exts c => scan_entry (directory ++ [n]) c exts)
          cs extensions
    | File n =>
        let ext := lower (snd (splitext n)) in
        if startswith_dot n
        then dict_set extensions n (dict_get extensions n 0 + 1)
        else dict_set extensions ext (dict_get extensions ext 0 + 1)
    | Other _ => extensions
    end.

Definition _scan_directory (directory : path) (entries : list entry)
    (extensions : dict) : dict :=
  fold_left (fun exts c => scan_entry directory c exts) entries extensions.

Definition discover_extensions (input_dir : path) (top : list entry) : dict :=
  _scan_directory input_dir top [].

End Catalog.

(** [main]: the extensions given on the command line. *)
Definition cli_extensions {U : Unicode} (args : list str) : list str :=
  map lower args.

(** ** TreeRenderer *)

(** Order of Python strings: lexicographic on code points. *)
Fixpoint str_leb (a b : str) : bool :=
  match a, b with
  | [], _ => true
  | _ :: _, [] => false
  | x :: a', y :: b' =>
      if x <? y then true else if y <? x then false else str_leb a' b'
  end.

(** Order of the keys [(not e.is_dir(), e.name)]. *)
Definition key_leb (e1 e2 : entry) : bool :=
  if Bool.eqb (negb (is_dir e1)) (negb (is_dir e2))
  then str_leb (entry_name e1) (entry_name e2)
  else is_dir e1.

(** [sorted]: a stable sort, here by insertion. *)
Fixpoint insert_sorted {A} (leb : A -> A -> bool) (x : A) (l : list A)
    : list A :=
  match l with
  | [] => [x]
  | y :: l' => if leb x y then x :: l else y :: insert_sorted leb x l'
  end.

Fixpoint sorted {A} (leb : A -> A -> bool) (l : list A) : list A :=
  match l with
  | [] => []
  | x :: l' => insert_sorted leb x (sorted leb l')
  end.

Definition connector_last : str := [9492; 9472; 9472; 32].   (* '└── ' *)
Definition connector_mid : str := [9500; 9472; 9472; 32].    (* '├── ' *)
Definition indent_last : str := [32; 32; 32; 32].            (* '    ' *)
Definition indent_mid : str := [9474; 32; 32; 32].           (* '│   ' *)

(** The list built by [get_tree_structure]: paths with their prefixes. *)
Definition tree_rows := list (list (list N) * list N).

(** A scanned entry together with the recursive call that lists what is
    below it, as a function of the entry's path and of the indent. *)
Definition scanned := (entry * (list (list N) -> list N -> tree_rows))%type.

Section Tree.
Variable exclude_dirs : list str.

(** The loop [for i, entry in enumerate(entries)] of
    [get_tree_structure], from index [i] on; [len] is [len(entries)]. *)
Fixpoint tree_loop (p : path) (indent : str) (len i : nat)
    (entries : list scanned) : tree_rows :=
  match entries with
  | [] => []
  | (entry, subtree) :: rest =>
      let entry_path := p ++ [entry_name entry] in
      if should_exclude_directory entry_path exclude_dirs
      then tree_loop p indent len (S i) rest
      else
        let is_last := Nat.eqb i (len - 1) in
        let prefix := if is_last then connector_last else connector_mid in
        (entry_path, indent ++ prefix)
        :: (if is_dir entry
            then subtree entry_path
                   (indent ++ (if is_last then indent_last else indent_mid))
            else [])
        ++ tree_loop p indent len (S i) rest
  end.

(** [get_tree_structure] on the directory [e]; the recursive call for
    each child is attached to it before the children are sorted, which
    keeps the recursion on the structure of the tree. *)
Fixpoint subtree_of (e : entry) : path -> str -> tree_rows :=
  match e with
  | Dir _ cs => fun p indent =>
      let entries :=
        sorted (fun a b => key_leb (fst a) (fst b))
          (map (fun c => (c, subtree_of c)) cs) in
      tree_loop p indent (length entries) 0 entries
  | _ => fun _ _ => []
  end.

Definition get_tree_structure (p : path) (indent : str) (cs : list entry)
    : tree_rows :=
  let entries :=
    sorted (fun a b => key_leb (fst a) (fst b))
      (map (fun c => (c, subtree_of c)) cs) in
  tree_loop p indent (length entries) 0 entries.

End Tree.

(** The entry at a path below [directory]; the first child of a name is
    the one the system resolves the name to. *)
Fixpoint lookup (cs : list entry) (rel : path) : option entry :=
  match rel with
  | [] => None
  | n :: rel' =>
      match find (fun c => str_eqb (entry_name c) n) cs with
      | Some e =>
          match rel' with
          | [] => Some e
          | _ :: _ =>
              match e with
              | Dir _ cs' => lookup cs' rel'
              | _ => None
              end
          end
      | None => None
      end
  end.

(** [os.path.isdir] and [os.path.isfile] of a path below [directory]. *)
Definition isdir (directory : path) (top : list entry) (p : path) : bool :=
  match lookup top (skipn (length directory) p) with
  | Some e => is_dir e
  | None => false
  end.

Definition isfile (directory : path) (top : list entry) (p : path) : bool :=
  match lookup top (skipn (length directory) p) with
  | Some e => is_file e
  | None => false
  end.

(** Decimal digits of a count, as [str(n)]. *)
Fixpoint digits (d : Decimal.uint) : str :=
  match d with
  | Decimal.Nil => []
  | Decimal.D0 d' => 48 :: digits d'
  | Decimal.D1 d' => 49 :: digits d'
  | Decimal.D2 d' => 50 :: digits d'
  | Decimal.D3 d' => 51 :: digits d'
  | Decimal.D4 d' => 52 :: digits d'
  | Decimal.D5 d' => 53 :: digits d'
  | Decimal.D6 d' => 54 :: digits d'
  | Decimal.D7 d' => 55 :: digits d'
  | Decimal.D8 d' => 56 :: digits d'
  | Decimal.D9 d' => 57 :: digits d'
  end.

Definition str_of_nat (n : nat) : str := digits (Nat.to_uint n).

(** The text that [generate_tree_output] writes. *)
Definition tree_text (directory : path) (top : list entry)
    (exclude_dirs : list str) : str :=
  let tree_structure := get_tree_structure exclude_dirs directory [] top in
  let tree_lines :=
    [lit "."]
    ++ map (fun '(p, prefix) => prefix ++ path_name p) tree_structure in
  let dir_count :=
    length (filter (fun '(p, _) => isdir directory top p) tree_structure) in
  let file_count :=
    length (filter (fun '(p, _) => isfile directory top p) tree_structure) in
  let tree_lines :=
    tree_lines
    ++ [[c_newline] ++ str_of_nat dir_count ++ lit " directories, "
        ++ str_of_nat file_count ++ lit " files"] in
  join [c_newline] tree_lines.

(** ** Effects

    A run reads files, creates directories, writes files and logs.  The
    [world] answers what the system would: the text of a file or the
    exception that reading it raises, and whether a file can be opened
    for writing or a directory made.  A computation yields the events it
    caused and either a value or the exception it raised. *)

(** The exceptions that [except Exception] catches: the decoding error,
    the errors of the system, and any other. *)
Inductive exn := UnicodeDecodeError | OSError | OtherException.

Inductive level := DEBUG | INFO | WARNING | ERROR.

Inductive event :=
| Makedirs (p : path)
| OpenRead (p : path)
| WriteFile (p : path) (content : str)
| Log (l : level) (about : path).

Record world := {
  read_text : path -> exn + list N;
  can_write : path -> bool;
  can_mkdir : path -> bool
}.

Definition M (A : Type) : Type := (list event * (exn + A))%type.

Definition ret {A} (a : A) : M A := ([], inr a).

Definition bind {A B} (m : M A) (f : A -> M B) : M B :=
  match m with
  | (evs, inl e) => (evs, inl e)
  | (evs, inr a) => let '(evs', r) := f a in (evs ++ evs', r)
  end.

Definition raise {A} (e : exn) : M A := ([], inl e).

Definition emit (ev : event) : M unit := ([ev], inr tt).

(** [try: m except Exception as e: handler e] *)
Definition try_except {A} (m : M A) (handler : exn -> M A) : M A :=
  match m with
  | (evs, inl e) => let '(evs', r) := handler e in (evs ++ evs', r)
  | (evs, inr a) => (evs, inr a)
  end.

Notation "x <- m ;; k" := (bind m (fun x => k))
  (at level 61, m at next level, right associativity).
Notation "m ;; k" := (bind m (fun _ => k))
  (at level 61, right associativity).

(** A [for] loop that carries the value [b] from turn to turn. *)
Fixpoint for_each {A B} (l : list A) (body : B -> A -> M B) (b : B) : M B :=
  match l with
  | [] => ret b
  | a :: l' => b' <- body b a ;; for_each l' body b'
  end.

Definition events {A} (m : M A) : list event := fst m.
Definition outcome {A} (m : M A) : exn + A := snd m.

Section Effects.
Variable w : world.

(** [with open(p, 'r', encoding='utf-8') as f: f.read()] *)
Definition open_read (p : path) : M (list N) :=
  emit (OpenRead p) ;;
  match read_text w p with
  | inl e => raise e
  | inr contents => ret contents
  end.

(** [with open(p, 'w', encoding='utf-8') as f: f.write(content)] *)
Definition open_write (p : path) (content : str) : M unit :=
  if can_write w p then emit (WriteFile p content) else raise OSError.

(** [os.makedirs(p, exist_ok=True)] and
    [p.mkdir(parents=True, exist_ok=True)] *)
Definition makedirs (p : path) : M unit :=
  if can_mkdir w p then emit (Makedirs p) else raise OSError.

Definition log (l : level) (about : path) : M unit := emit (Log l about).

End Effects.

(** ** MarkdownRenderer *)

(** The fragment built from the text of a file: the lines 67 to 72 of
    [generate_markdown_from_file], which the single-file branch of
    [generate_markdown_from_directory] repeats word for word. *)
Definition render (rel_path file_contents language : str) : str :=
  let markdown_output := lit "# File Name: " ++ rel_path ++ [c_newline] in
  let markdown_output :=
    markdown_output ++ lit "# File Contents:" ++ [c_newline] in
  if truthy language
  then markdown_output
       ++ (lit "```" ++ language ++ [c_newline] ++ file_contents
           ++ [c_newline] ++ lit "```" ++ [c_newline; c_newline])
  else markdown_output ++ (file_contents ++ [c_newline; c_newline]).

Section Pipeline.
Context {U : Unicode}.
Variable w : world.

Definition generate_markdown_from_file (input_filepath output_filepath : path)
    (rel_path language : str) : M unit :=
  try_except
    (file_contents <- open_read w input_filepath ;;
     let markdown_output := render rel_path file_contents language in
     open_write w output_filepath markdown_output ;;
     log INFO output_filepath)
    (fun e =>
       match e with
       | UnicodeDecodeError => log WARNING input_filepath
       | _ => log ERROR input_filepath
       end).

(** [top] is what [os.scandir] finds when the tree is made; every
    directory of it is taken to be listable here.  The failure of line
    102 on a directory that cannot be listed is added in
    [generate_tree_output_io]. *)
Definition generate_tree_output (directory : path) (top : list entry)
    (output_filename : path) (exclude_dirs : list str) : M unit :=
  open_write w output_filename (tree_text directory top exclude_dirs) ;;
  log INFO output_filename.

(** ** ConversionPipeline *)

Definition dirnames (cs : list entry) : list str :=
  map entry_name (filter is_dir cs).

Definition filenames (cs : list entry) : list str :=
  map entry_name (filter (fun c => negb (is_dir c)) cs).

(** [os.walk], top down: a directory yields its path with the names of
    its directories and of its other entries, then its directories are
    walked in turn ([walk_entry] yields nothing for an entry that is not
    a directory). *)
Fixpoint walk_entry (root : path) (e : entry)
    : list (list (list N) * list (list N) * list (list N)) :=
  match e with
  | Dir _ cs =>
      (root, dirnames cs, filenames cs)
      :: flat_map (fun c => walk_entry (root ++ [entry_name c]) c) cs
  | _ => []
  end.

Definition os_walk (top : path) (cs : list entry)
    : list (list (list N) * list (list N) * list (list N)) :=
  (top, dirnames cs, filenames cs)
  :: flat_map (fun c => walk_entry (top ++ [entry_name c]) c) cs.

(** The test of line 244 on a file name that passed line 242. *)
Definition selected (extensions : list str) (file : str) : bool :=
  let ext := lower (snd (splitext file)) in
  mem ext extensions || (negb (truthy ext) && mem file extensions).

Definition separator : str := lit "---" ++ [c_newline].

Section Run.
Variables (input_dir output_dir : path) (extensions : list str)
  (single_file : bool) (exclude_dirs : list str).

(** The body of [for file in files], lines 242 to 273. *)
Definition process_file (root : path) (all_markdown_content : list str)
    (file : str) : M (list (list N)) :=
  if negb (mem file [lit ".DS_Store"; lit ".env"]) then
    let ext := lower (snd (splitext file)) in
    if mem ext extensions || (negb (truthy ext) && mem file extensions) then
      let input_filepath := root ++ [file] in
      let rel_path := relpath input_filepath input_dir in
      let sanitised_filename := sanitise_filename rel_path in
      let markdown_filename := sanitised_filename ++ lit ".txt" in
      let language := skipn 1 ext in
      if negb single_file then
        let output_filepath := path_div output_dir rel_path in
        let output_filepath := with_name output_filepath markdown_filename in
        makedirs w (parent output_filepath) ;;
        generate_markdown_from_file input_filepath output_filepath
          rel_path language ;;
        ret all_markdown_content
      else
        try_except
          (file_contents <- open_read w input_filepath ;;
           let markdown_content := render rel_path file_contents language in
           ret (all_markdown_content ++ [markdown_content]))
          (fun e =>
             match e with
             | UnicodeDecodeError => log WARNING input_filepath
             | _ => log ERROR input_filepath
             end ;;
             ret all_markdown_content)
    else ret all_markdown_content
  else ret all_markdown_content.

(** The body of [for root, _, files in os.walk(input_dir)]. *)
Definition process_directory (all_markdown_content : list str)
    (step : list (list N) * list (list N) * list (list N))
    : M (list (list N)) :=
  let '(root, _, files) := step in
  if should_exclude_directory root exclude_dirs then
    log DEBUG root ;;
    ret all_markdown_content
  else for_each files (process_file root) all_markdown_content.

(** The run on a disk that the walk and the tree of line 282 find alike,
    as [top]: what the run writes is then not below the input directory,
    and every directory can be listed.  The run on a disk that the tree
    finds changed, or on which a listing fails, is
    [generate_markdown_from_directory_io]. *)
Definition generate_markdown_from_directory (top : list entry) : M unit :=
  makedirs w output_dir ;;
  all_markdown_content <-
    for_each (os_walk input_dir top) process_directory [] ;;
  (if single_file then
     let single_output_file := path_div output_dir (lit "all_files.txt") in
     open_write w single_output_file (join separator all_markdown_content) ;;
     log INFO single_output_file
   else ret tt) ;;
  generate_tree_output input_dir top
    (path_div output_dir (lit "directory_tree.txt")) exclude_dirs.

End Run.
End Pipeline.

(** ** What the passes are compared with *)

(** [visible excl cs e]: the entry [e] is reached from the directory
    with the children [cs] without passing an excluded name, its own
    included. *)
Inductive visible (excl : list (list N)) : list entry -> entry -> Prop :=
| visible_here cs e :
    In e cs -> should_exclude_directory [entry_name e] excl = false ->
    visible excl cs e
| visible_below cs n cs' e :
    In (Dir n cs') cs -> should_exclude_directory [n] excl = false ->
    visible excl cs' e ->
    visible excl cs e.

(** The keys of a [dict], as [d.keys()]. *)
Definition keys (d : dict) : list (list N) := map fst d.

Definition children_of (c : entry) : list entry :=
  match c with Dir _ cs => cs | _ => [] end.

Section Reference.
Context {U : Unicode}.
Variable w : world.
Variables (input_dir extensions exclude_dirs : list (list N)).

(** The key under which a file is counted. *)
Definition key_of (f : list N) : list N :=
  if startswith_dot f then f else lower (snd (splitext f)).

(** The two tests of lines 242 and 244. *)
Definition included (file : list N) : bool :=
  negb (mem file [lit ".DS_Store"; lit ".env"]) && selected extensions file.

(** The fragment of a file of the directory [root], if it is included
    and can be read. *)
Definition fragment (root : list (list N)) (file : list N) : list (list N) :=
  if included file then
    match read_text w (root ++ [file]) with
    | inr contents =>
        [render (relpath (root ++ [file]) input_dir) contents
           (skipn 1 (lower (snd (splitext file))))]
    | inl _ => []
    end
  else [].

(** The fragments of the files of the walk, in its order. *)
Definition fragments (top : list entry) : list (list N) :=
  flat_map
    (fun '(root, _, files) =>
       if should_exclude_directory root exclude_dirs then []
       else flat_map (fragment root) files)
    (os_walk input_dir top).

(** What the single-file branch does for a file. *)
Definition read_events (root : list (list N)) (file : list N) : list event :=
  if included file then
    OpenRead (root ++ [file])
    :: match read_text w (root ++ [file]) with
       | inl UnicodeDecodeError => [Log WARNING (root ++ [file])]
       | inl _ => [Log ERROR (root ++ [file])]
       | inr _ => []
       end
  else [].

Definition walk_events
    (step : list (list N) * list (list N) * list (list N)) : list event :=
  let '(root, _, files) := step in
  if should_exclude_directory root exclude_dirs then [Log DEBUG root]
  else flat_map (read_events root) files.

End Reference.

(** No directory creation fails during the walk: there is none in
    single-file mode. *)
Definition walk_unhindered (w : world) (single_file : bool) : Prop :=
  single_file = true \/ forall p, can_mkdir w p = true.

(** The statements proved of each entry by induction on the tree. *)
Section Invariants.
Context {U : Unicode}.
Variable excl : list (list N).

Definition scan_sound (c : entry) : Prop :=
  forall dir d k,
    In k (keys (scan_entry excl dir c d)) ->
    In k (keys d) \/ exists f, visible excl [c] (File f) /\ k = key_of f.

Definition scan_complete (c : entry) : Prop :=
  forall dir d,
    (forall k, In k (keys d) -> In k (keys (scan_entry excl dir c d)))
    /\ (forall f, visible excl [c] (File f) ->
          In (key_of f) (keys (scan_entry excl dir c d))).

(** Every row below [c] names an entry that is visible from [c]. *)
Definition tree_sound (c : entry) : Prop :=
  forall p indent row,
    In row (subtree_of excl c p indent) ->
    exists e, visible excl (children_of c) e
              /\ path_name (fst row) = entry_name e.

End Invariants.

(** ** Sample inputs *)

(** The text of the round-trip example: [print("hi")]. *)
Definition print_hi : list N :=
  lit "print(" ++ [34] ++ lit "hi" ++ [34] ++ lit ")".

(** Every file holds [print("hi")] and everything can be written. *)
Definition world_ok : world :=
  {| read_text := fun _ => inr print_hi;
     can_write := fun _ => true;
     can_mkdir := fun _ => true |}.

(** No file is valid UTF-8. *)
Definition world_undecodable : world :=
  {| read_text := fun _ => inl UnicodeDecodeError;
     can_write := fun _ => true;
     can_mkdir := fun _ => true |}.

(** A small project: two sources, an [.env], and a directory. *)
Definition sample_tree : list entry :=
  [File (lit "a.py"); File (lit ".env");
   Dir (lit "s") [File (lit "README"); File (lit "b.PY")]].

(** A project with a dependency directory. *)
Definition vendored_tree : list entry :=
  [Dir (lit "node_modules") [Dir (lit "pkg") [File (lit "index.js")]];
   File (lit "main.js")].

(** ** The rest of the program *)

(** [f"{ext} ({count})"], a choice of the check box. *)
Definition choice_of (ext : list N) (count : nat) : list N :=
  ext ++ lit " (" ++ str_of_nat count ++ lit ")".

(** [choice.split(" ")[0]]: what comes before the first space. *)
Fixpoint before_space (s : list N) : list N :=
  match s with
  | [] => []
  | c :: s' => if c =? 32 then [] else c :: before_space s'
  end.

Section Select.
Context {U : Unicode}.

(** The check box of [inquirer]: from the choices (all ticked to start
    with) to the ticked ones, or [None] when the prompt is abandoned. *)
Variable ask_extensions : list (list N) -> option (list (list N)).

Definition select_extensions (input_dir : list (list N)) (top : list entry)
    (exclude_dirs : list (list N)) : M (list (list N)) :=
  let extensions_with_counts := discover_extensions exclude_dirs input_dir top in
  if negb (truthy extensions_with_counts) then
    log WARNING input_dir ;;
    ret []
  else
    let choices :=
      map (fun '(ext, count) => choice_of ext count) extensions_with_counts in
    match ask_extensions choices with
    | None => ret []
    | Some answers =>
        let selected_extensions := map before_space answers in
        ret selected_extensions
    end.

End Select.

(** ** More of what the passes are compared with *)

(** The names of the files that [_scan_directory] counts, in its order. *)
Fixpoint scanned_entry (excl : list (list N)) (e : entry) : list (list N) :=
  if should_exclude_directory [entry_name e] excl then []
  else
    match e with
    | File n => [n]
    | Dir _ cs => flat_map (scanned_entry excl) cs
    | Other _ => []
    end.

Definition scanned_files (excl : list (list N)) (cs : list entry)
    : list (list N) :=
  flat_map (scanned_entry excl) cs.

(** [extensions[k] = extensions.get(k, 0) + 1] *)
Definition dict_incr (d : dict) (k : list N) : dict :=
  dict_set d k (dict_get d k 0 + 1).

Definition str_eq_dec : forall a b : list N, {a = b} + {a <> b} :=
  list_eq_dec N.eq_dec.

(** The elements of [l] that are not in [seen], each once, in the order
    of their first occurrence. *)
Fixpoint first_seen (seen l : list (list N)) : list (list N) :=
  match l with
  | [] => []
  | k :: l' =>
      if mem k seen then first_seen seen l'
      else k :: first_seen (k :: seen) l'
  end.

(** The sum of the counts of a [dict]. *)
Definition total (d : dict) : nat := list_sum (map snd d).

(** [reachable excl cs rel e]: [e] is an entry at the relative path
    [rel] below the directory with the children [cs], and no name on
    [rel] is excluded. *)
Inductive reachable (excl : list (list N))
    : list entry -> list (list N) -> entry -> Prop :=
| reach_here cs e :
    In e cs -> should_exclude_directory [entry_name e] excl = false ->
    reachable excl cs [entry_name e] e
| reach_below cs n cs' rel e :
    In (Dir n cs') cs -> should_exclude_directory [n] excl = false ->
    reachable excl cs' rel e ->
    reachable excl cs (n :: rel) e.

(** A prefix of the tree: the indent received, one unit for each
    directory passed, and a connector. *)
Definition prefix_of (indent : list N) (units : list (list N)) (conn : list N)
    : list N :=
  indent ++ concat units ++ conn.

Definition is_unit (u : list N) : Prop := u = indent_last \/ u = indent_mid.

Definition is_connector (c : list N) : Prop :=
  c = connector_last \/ c = connector_mid.

(** What holds of a row listed below the directory [p] with the
    children [cs]. *)
Definition row_ok (excl : list (list N)) (cs : list entry)
    (p : list (list N)) (indent : list N)
    (row : list (list N) * list N) : Prop :=
  exists rel e units conn,
    fst row = p ++ rel
    /\ reachable excl cs rel e
    /\ snd row = prefix_of indent units conn
    /\ S (length units) = length rel
    /\ Forall is_unit units
    /\ is_connector conn.

Definition rows_ok (excl : list (list N)) (c : entry) : Prop :=
  forall p indent row,
    In row (subtree_of excl c p indent) ->
    row_ok excl (children_of c) p indent row.

Definition rows_complete (excl : list (list N)) (c : entry) : Prop :=
  forall p indent rel e,
    reachable excl (children_of c) rel e ->
    exists prefix, In (p ++ rel, prefix) (subtree_of excl c p indent).

(** The rows that [get_tree_structure] makes for the entries of one
    directory, given in the order of the loop: the entry at index [i] is
    left out when its name is excluded, and is the last one for the
    connector when [i] is the last index of the whole list. *)
Definition level_rows (excl : list (list N)) (p : list (list N))
    (indent : list N) (entries : list entry) : tree_rows :=
  flat_map
    (fun '(i, e) =>
       if should_exclude_directory (p ++ [entry_name e]) excl then []
       else [(p ++ [entry_name e],
              indent ++ (if Nat.eqb i (length entries - 1)
                         then connector_last else connector_mid))])
    (combine (seq 0 (length entries)) entries).

(** The rows of the directory [p] itself among the rows of a tree. *)
Definition at_level (p : list (list N)) (rows : tree_rows) : tree_rows :=
  filter (fun row => Nat.eqb (length (fst row)) (S (length p))) rows.

(** The files written, in order. *)
Definition writes (evs : list event) : list (list (list N) * list N) :=
  flat_map (fun ev => match ev with WriteFile p c => [(p, c)] | _ => [] end)
    evs.

Section PerFile.
Context {U : Unicode}.
Variable w : world.
Variables (input_dir output_dir extensions exclude_dirs : list (list N)).

(** The path of the document of a file, lines 246 to 253. *)
Definition output_path (root : list (list N)) (file : list N)
    : list (list N) :=
  let rel_path := relpath (root ++ [file]) input_dir in
  with_name (path_div output_dir rel_path)
    (sanitise_filename rel_path ++ lit ".txt").

(** What the per-file branch does for a file when the directory of its
    document can be made. *)
Definition file_events (root : list (list N)) (file : list N) : list event :=
  if included extensions file then
    Makedirs (parent (output_path root file))
    :: events (generate_markdown_from_file w (root ++ [file])
                 (output_path root file)
                 (relpath (root ++ [file]) input_dir)
                 (skipn 1 (lower (snd (splitext file)))))
  else [].

(** The document written for a file: none unless the file is included,
    is read without error, and its document can be opened. *)
Definition file_writes (root : list (list N)) (file : list N)
    : list (list (list N) * list N) :=
  if included extensions file then
    match read_text w (root ++ [file]) with
    | inr contents =>
        if can_write w (output_path root file)
        then [(output_path root file,
               render (relpath (root ++ [file]) input_dir) contents
                 (skipn 1 (lower (snd (splitext file)))))]
        else []
    | inl _ => []
    end
  else [].

(** The documents written for the directories that a walk yields. *)
Definition walk_writes
    (steps : list (list (list N) * list (list N) * list (list N)))
    : list (list (list N) * list N) :=
  flat_map
    (fun '(root, _, files) =>
       if should_exclude_directory root exclude_dirs then []
       else flat_map (file_writes root) files)
    steps.

End PerFile.

(** ** The disk during a run

    [generate_markdown_from_directory] above walks and renders one tree
    and takes every directory to be listable.  The program lists the
    disk twice: [os.walk] lists each directory when it comes to it, and
    [generate_tree_output] lists the input directory again at line 282,
    after the documents were written, which it finds there when the
    output directory lies in the input directory (as the default output
    directory of [main] does when the working directory holds the input
    directory).  A listing can also fail: [os.walk] passes over a
    directory that it cannot list, while [os.scandir] at line 102 raises
    the error, before anything is written to [directory_tree.txt].

    Below, [top] is what the walk lists and [final] what the tree lists;
    [listable] tells of a path whether listing it succeeds, and what a
    tree holds below a directory that cannot be listed is never looked
    at. *)

Section Listing.
Variable listable : list (list N) -> bool.

(** [os.walk] with its default [onerror=None]. *)
Fixpoint walk_entry_io (root : list (list N)) (e : entry)
    : list (list (list N) * list (list N) * list (list N)) :=
  match e with
  | Dir _ cs =>
      if listable root then
        (root, dirnames cs, filenames cs)
        :: flat_map (fun c => walk_entry_io (root ++ [entry_name c]) c) cs
      else []
  | _ => []
  end.

Definition os_walk_io (top : list (list N)) (cs : list entry)
    : list (list (list N) * list (list N) * list (list N)) :=
  if listable top then
    (top, dirnames cs, filenames cs)
    :: flat_map (fun c => walk_entry_io (top ++ [entry_name c]) c) cs
  else [].

(** Every call of [os.scandir] that [get_tree_structure] makes for the
    entry [e] at the path [p] succeeds: an excluded entry is skipped at
    line 105, a directory is listed and its entries are looked at in
    turn. *)
Fixpoint entry_listable (exclude_dirs : list (list N)) (p : list (list N))
    (e : entry) : bool :=
  if should_exclude_directory p exclude_dirs then true
  else
    match e with
    | Dir _ cs =>
        listable p
        && forallb (fun c => entry_listable exclude_dirs (p ++ [entry_name c]) c)
             cs
    | _ => true
    end.

Definition tree_listable (exclude_dirs : list (list N))
    (directory : list (list N)) (cs : list entry) : bool :=
  listable directory
  && forallb
       (fun c => entry_listable exclude_dirs (directory ++ [entry_name c]) c)
       cs.

End Listing.

Section RunIO.
Context {U : Unicode}.
Variable w : world.
Variable listable : list (list N) -> bool.

(** [generate_tree_output] with the failure of line 102. *)
Definition generate_tree_output_io (directory : list (list N))
    (final : list entry) (output_filename : list (list N))
    (exclude_dirs : list (list N)) : M unit :=
  if tree_listable listable exclude_dirs directory final then
    generate_tree_output w directory final output_filename exclude_dirs
  else raise OSError.

(** [generate_markdown_from_directory] on a disk that the walk finds as
    [top] and the tree as [final]. *)
Definition generate_markdown_from_directory_io
    (input_dir output_dir extensions : list (list N)) (single_file : bool)
    (exclude_dirs : list (list N)) (top final : list entry) : M unit :=
  makedirs w output_dir ;;
  all_markdown_content <-
    for_each (os_walk_io listable input_dir top)
      (process_directory w input_dir output_dir extensions single_file
         exclude_dirs) [] ;;
  (if single_file then
     let single_output_file := path_div output_dir (lit "all_files.txt") in
     open_write w single_output_file (join separator all_markdown_content) ;;
     log INFO single_output_file
   else ret tt) ;;
  generate_tree_output_io input_dir final
    (path_div output_dir (lit "directory_tree.txt")) exclude_dirs.

End RunIO.

(** A disk on which the directory [s] of the input directory [in]
    cannot be listed. *)
Definition s_unlistable (p : list (list N)) : bool :=
  match p with
  | [a; b] => negb (str_eqb a (lit "in") && str_eqb b (lit "s"))
  | _ => true
  end.

(** A name as a directory holds it: not empty, without [/], not [.]. *)
Definition plain (n : list N) : bool :=
  truthy n && negb (existsb (N.eqb c_slash) n) && negb (str_eqb n [c_dot]).

(** Every name of the tree is plain. *)
Fixpoint plain_entry (e : entry) : bool :=
  plain (entry_name e)
  && match e with
     | Dir _ cs => forallb plain_entry cs
     | _ => true
     end.

(** ** [main]

    The arguments as [argparse] leaves them, an option that was not
    given being the empty string or the empty list, which the program
    tests like [None]; the answers of the prompts of [inquirer]; and
    what the system tells of the working directory and of a directory
    ([None] for a path that is no directory).  A record of the log
    carries its level and the path it is about, not its text.
    [setup_logging], which only installs the handlers of the log, is
    left out. *)

Record arguments := {
  arg_input_dir : list N;
  arg_output_dir : list N;
  arg_extensions : list (list N);
  arg_exclude_dir : list (list N);
  arg_single_file : bool
}.

Record console := {
  ask_paths : option (list N * list N * bool);
  ask_extensions : list (list N) -> option (list (list N))
}.

Record system := {
  getcwd : list (list N);
  scandir : list (list N) -> option (list entry)
}.


Section Main.
Context {U : Unicode}.
Variables (w : world) (sys : system) (con : console).

Definition main (args : arguments) : M unit :=
  let '(input_dir, output_dir_str, single_file) :=
    if negb (truthy (arg_input_dir args)) then
      match ask_paths con with
      | Some (input_dir, output_dir, single_file) =>
          (Some (path_of_str input_dir), output_dir, single_file)
      | None => (None, [], false)
      end
    else
      (Some (path_of_str (arg_input_dir args)),
       (if truthy (arg_output_dir args) then arg_output_dir args else []),
       arg_single_file args) in
  let output_dir :=
    if str_eqb output_dir_str [] then
      match input_dir with
      | Some input_dir => Some (path_div (getcwd sys) (path_name input_dir))
      | None => None
      end
    else Some (path_of_str output_dir_str) in
  let exclude_dirs := arg_exclude_dir args in
  match input_dir, output_dir with
  | Some input_dir, Some output_dir =>
      match scandir sys input_dir with
      | None => log ERROR input_dir
      | Some top =>
          selected_extensions <-
            (if truthy (arg_extensions args) then
               log INFO input_dir ;;
               ret (map lower (arg_extensions args))
             else
               select_extensions (ask_extensions con) input_dir top
                 exclude_dirs) ;;
          if negb (truthy selected_extensions) then log INFO input_dir
          else
            generate_markdown_from_directory w input_dir output_dir
              selected_extensions single_file exclude_dirs top ;;
            log INFO output_dir
      end
  | _, _ => log ERROR []
  end.

End Main.




(** No name twice in a list, and in no directory of a tree. *)
Fixpoint distinct (l : list (list N)) : bool :=
  match l with
  | [] => true
  | x :: l' => negb (mem x l') && distinct l'
  end.

Fixpoint unique_names (e : entry) : bool :=
  match e with
  | Dir _ cs => distinct (map entry_name cs) && forallb unique_names cs
  | _ => true
  end.

(** The number of entries of one kind that are reached through [e]
    without passing an excluded name, [e] included. *)
Fixpoint count_entries (kind : entry -> bool) (excl : list (list N))
    (e : entry) : nat :=
  if should_exclude_directory [entry_name e] excl then 0%nat
  else
    ((if kind e then 1 else 0)
     + match e with
       | Dir _ cs => list_sum (map (count_entries kind excl) cs)
       | _ => 0
       end)%nat.

(** The rows that a test of the path of a row keeps. *)
Definition count_rows (test : list (list N) -> bool) (rows : tree_rows) : nat :=
  length (filter (fun '(p, _) => test p) rows).

(** What is proved of each entry for the counts. *)
Definition counts_ok (kind : entry -> bool) (excl : list (list N))
    (c : entry) : Prop :=
  unique_names c = true ->
  forall (at_path : list (list N) -> option entry) p indent,
    (forall rel, rel <> [] -> at_path (p ++ rel) = lookup (children_of c) rel) ->
    count_rows (fun q => match at_path q with
                         | Some e => kind e
                         | None => false
                         end)
      (subtree_of excl c p indent)
    = list_sum (map (count_entries kind excl) (children_of c)).

(** * Properties *)

(** ** Strings *)

Lemma str_eqb_eq a b : str_eqb a b = true <-> a = b.
Proof.
  unfold str_eqb; destruct (list_eq_dec N.eq_dec a b); split; congruence.
Qed.

Lemma str_eqb_refl a : str_eqb a a = true.
Proof. now apply str_eqb_eq. Qed.

Lemma str_eqb_neq a b : str_eqb a b = false <-> a <> b.
Proof.
  unfold str_eqb; destruct (list_eq_dec N.eq_dec a b); split; congruence.
Qed.

Lemma mem_In x l : mem x l = true <-> In x l.
Proof.
  unfold mem; rewrite existsb_exists; split.
  - intros [y [Hy E]]. apply str_eqb_eq in E. now subst.
  - intros H. exists x. split; [assumption | apply str_eqb_refl].
Qed.

(** ** FilenameSanitizer *)

Section SanitiseFacts.
Context {U : Unicode}.

Lemma sub_invalid_ascii x :
  forallb is_ascii x = true -> forallb ascii_kept (sub_invalid x) = true.
Proof.
  induction x as [|c x IH]; simpl; [reflexivity|].
  intros H. apply andb_true_iff in H as [Hc Hx].
  rewrite (IH Hx), andb_true_r.
  assert (Hlt : c < 128) by (apply N.ltb_lt; exact Hc).
  unfold is_word. rewrite (isalnum_ascii c Hlt), (isspace_ascii c Hlt).
  unfold ascii_kept. clear IH Hx.
  destruct (ascii_isalnum c) eqn:Ha; simpl.
  - now rewrite Hc, Ha.
  - destruct (c =? c_underscore) eqn:Hu; simpl.
    + now rewrite Hc, Ha, Hu.
    + destruct (ascii_isspace c) eqn:Hs; simpl.
      * now rewrite Hc, Ha, Hu, Hs.
      * destruct (c =? c_hyphen) eqn:Hh.
        -- rewrite Hc, Ha, Hu, Hs, Hh. reflexivity.
        -- reflexivity.
Qed.

Lemma lstrip_forallb (P : char -> bool) s :
  forallb P s = true -> forallb P (lstrip s) = true.
Proof.
  induction s as [|c s IH]; simpl; [reflexivity|].
  intros H. destruct (isspace c); [|exact H].
  apply andb_true_iff in H as [_ Hs]. now apply IH.
Qed.

Lemma forallb_rev (P : char -> bool) s :
  forallb P s = true -> forallb P (rev s) = true.
Proof.
  rewrite !forallb_forall. intros H c Hc. apply H. now apply in_rev.
Qed.

Lemma strip_forallb (P : char -> bool) s :
  forallb P s = true -> forallb P (strip s) = true.
Proof.
  intros H. unfold strip.
  now apply forallb_rev, lstrip_forallb, forallb_rev, lstrip_forallb.
Qed.

Lemma ascii_kept_is_ascii s :
  forallb ascii_kept s = true -> forallb is_ascii s = true.
Proof.
  rewrite !forallb_forall. intros H c Hc. specialize (H c Hc).
  unfold ascii_kept in H. now apply andb_true_iff in H as [H _].
Qed.

Lemma ascii_lower_kept c :
  ascii_kept c = true -> ascii_kept_lower (ascii_lower c) = true.
Proof.
  unfold ascii_kept, ascii_kept_lower. intros H. char_cases.
Qed.

Lemma lower_kept s :
  forallb ascii_kept s = true -> forallb ascii_kept_lower (lower s) = true.
Proof.
  intros H. rewrite (lower_ascii s (ascii_kept_is_ascii s H)).
  induction s as [|c s IH]; simpl in *; [reflexivity|].
  apply andb_true_iff in H as [Hc Hs].
  now rewrite (ascii_lower_kept c Hc), (IH Hs).
Qed.

Lemma ascii_kept_lower_lt c : ascii_kept_lower c = true -> c < 128.
Proof. unfold ascii_kept_lower. intros H. char_cases. Qed.

Lemma is_sep_kept_lower c :
  ascii_kept_lower c = true -> is_sep c = false -> is_lower_word c = true.
Proof.
  intros H Hs. unfold is_sep in Hs.
  rewrite (isspace_ascii c (ascii_kept_lower_lt c H)) in Hs.
  unfold ascii_kept_lower in H.
  apply orb_false_iff in Hs as [Hh Hsp].
  rewrite Hh, Hsp, !orb_false_r in H. exact H.
Qed.

Lemma sub_runs_lower_word s : forall in_run,
  forallb ascii_kept_lower s = true ->
  forallb is_lower_word (sub_runs in_run s) = true.
Proof.
  induction s as [|c s IH]; intros in_run H; simpl; [reflexivity|].
  simpl in H. apply andb_true_iff in H as [Hc Hs].
  destruct (is_sep c) eqn:Hsep.
  - destruct in_run; simpl; now rewrite ?(IH _ Hs).
  - simpl. now rewrite (is_sep_kept_lower c Hc Hsep), (IH _ Hs).
Qed.

Lemma sanitise_filename_ascii x :
  forallb is_ascii x = true ->
  forallb is_lower_word (sanitise_filename x) = true.
Proof.
  intros H. unfold sanitise_filename.
  now apply sub_runs_lower_word, lower_kept, strip_forallb, sub_invalid_ascii.
Qed.

(** A string over [[a-z0-9_]] is a fixed point of every step. *)

Lemma is_lower_word_lt c : is_lower_word c = true -> c < 128.
Proof. intros H. char_cases. Qed.

Lemma is_lower_word_word c : is_lower_word c = true -> is_word c = true.
Proof.
  intros H. unfold is_word.
  rewrite (isalnum_ascii c (is_lower_word_lt c H)). char_cases.
Qed.

Lemma is_lower_word_space c : is_lower_word c = true -> isspace c = false.
Proof.
  intros H. rewrite (isspace_ascii c (is_lower_word_lt c H)). char_cases.
Qed.

Lemma is_lower_word_sep c : is_lower_word c = true -> is_sep c = false.
Proof.
  intros H. unfold is_sep. rewrite (is_lower_word_space c H).
  char_cases.
Qed.

Lemma sub_invalid_fixed s :
  forallb is_lower_word s = true -> sub_invalid s = s.
Proof.
  induction s as [|c s IH]; simpl; [reflexivity|].
  intros H. apply andb_true_iff in H as [Hc Hs].
  now rewrite (is_lower_word_word c Hc), (IH Hs).
Qed.

Lemma lstrip_fixed s :
  forallb is_lower_word s = true -> lstrip s = s.
Proof.
  destruct s as [|c s]; simpl; [reflexivity|].
  intros H. apply andb_true_iff in H as [Hc _].
  now rewrite (is_lower_word_space c Hc).
Qed.

Lemma strip_fixed s :
  forallb is_lower_word s = true -> strip s = s.
Proof.
  intros H. unfold strip.
  rewrite (lstrip_fixed s H).
  rewrite (lstrip_fixed (rev s) (forallb_rev _ s H)).
  apply rev_involutive.
Qed.

Lemma lower_fixed s :
  forallb is_lower_word s = true -> lower s = s.
Proof.
  intros H. rewrite lower_ascii.
  - induction s as [|c s IH]; simpl in *; [reflexivity|].
    apply andb_true_iff in H as [Hc Hs]. rewrite (IH Hs). f_equal.
    clear IH Hs. char_cases.
  - rewrite forallb_forall in *. intros c Hc.
    apply N.ltb_lt, is_lower_word_lt, H, Hc.
Qed.

Lemma sub_runs_fixed s :
  forallb is_lower_word s = true -> sub_runs false s = s.
Proof.
  induction s as [|c s IH]; simpl; [reflexivity|].
  intros H. apply andb_true_iff in H as [Hc Hs].
  now rewrite (is_lower_word_sep c Hc), (IH Hs).
Qed.

Lemma sanitise_filename_fixed s :
  forallb is_lower_word s = true -> sanitise_filename s = s.
Proof.
  intros H. unfold sanitise_filename.
  now rewrite (sub_invalid_fixed s H), (strip_fixed s H), (lower_fixed s H),
    (sub_runs_fixed s H).
Qed.

End SanitiseFacts.

(** C3, as it holds: for every string [x] of ASCII characters, every
    character of [sanitise_filename x] is in [[a-z0-9_]]. *)
Theorem sanitise_filename_charset (U : Unicode) (x : list N) :
  forallb is_ascii x = true ->
  forallb is_lower_word (sanitise_filename x) = true.
Proof. apply sanitise_filename_ascii. Qed.

Lemma sanitise_filename_charset_witness :
  forallb is_ascii (lit "src/My File-Name.PY") = true
  /\ forallb is_lower_word
       (@sanitise_filename py_unicode (lit "src/My File-Name.PY")) = true.
Proof.
  split; [reflexivity|].
  apply (sanitise_filename_charset py_unicode (lit "src/My File-Name.PY")).
  reflexivity.
Defined.

(** C3 as stated fails: the word character U+00E9 of [café.py] is kept,
    [sanitise_filename('café.py') == 'café_py']. *)
Lemma sanitise_filename_keeps_e_acute :
  @sanitise_filename py_unicode ([99; 97; 102; 233] ++ lit ".py")
    = [99; 97; 102; 233] ++ lit "_py"
  /\ forallb is_lower_word
       (@sanitise_filename py_unicode ([99; 97; 102; 233] ++ lit ".py"))
     = false.
Proof. split; reflexivity. Qed.

(** C5, as it holds: for every string [x] of ASCII characters,
    [sanitise_filename (sanitise_filename x) = sanitise_filename x]. *)
Theorem sanitise_filename_idempotent (U : Unicode) (x : list N) :
  forallb is_ascii x = true ->
  sanitise_filename (sanitise_filename x) = sanitise_filename x.
Proof.
  intros H. apply sanitise_filename_fixed, sanitise_filename_ascii, H.
Qed.

Lemma sanitise_filename_idempotent_witness :
  forallb is_ascii (lit "  a -- b/C.d  ") = true
  /\ @sanitise_filename py_unicode
       (@sanitise_filename py_unicode (lit "  a -- b/C.d  "))
     = @sanitise_filename py_unicode (lit "  a -- b/C.d  ").
Proof.
  split; [reflexivity|].
  apply (sanitise_filename_idempotent py_unicode (lit "  a -- b/C.d  ")).
  reflexivity.
Defined.

(** C5 as stated fails at U+0130: lower-casing it gives [i] and the
    combining dot U+0307, which is no word character, so the second pass
    replaces it: ['i̇'] becomes ['i_']. *)
Lemma sanitise_filename_not_idempotent :
  @sanitise_filename py_unicode [304] = [105; 775]
  /\ @sanitise_filename py_unicode (@sanitise_filename py_unicode [304])
     = [105; 95]
  /\ @sanitise_filename py_unicode (@sanitise_filename py_unicode [304])
     <> @sanitise_filename py_unicode [304].
Proof. repeat split; try reflexivity. discriminate. Qed.

(** ** MarkdownRenderer *)

(** C7: the fragment is the two header lines followed by the fenced text
    when the language is not empty and by the bare text when it is; the
    text is a contiguous part of it, unchanged, two newlines end it, and
    a file that is read and written without error receives exactly this
    fragment.  The example of [a/b.py] comes out as written. *)
Theorem render_exact (p c g : list N) :
  render p c g
  = lit "# File Name: " ++ p ++ [c_newline] ++ lit "# File Contents:"
    ++ [c_newline]
    ++ (if truthy g
        then lit "```" ++ g ++ [c_newline] ++ c ++ [c_newline] ++ lit "```"
             ++ [c_newline; c_newline]
        else c ++ [c_newline; c_newline])
  /\ (exists before after,
        render p c g = before ++ c ++ after
        /\ exists before', after = before' ++ [c_newline; c_newline])
  /\ (forall (w : world) (input output : list (list N)),
        read_text w input = inr c -> can_write w output = true ->
        generate_markdown_from_file w input output p g
        = ([OpenRead input; WriteFile output (render p c g); Log INFO output],
           inr tt))
  /\ render (lit "a/b.py") print_hi (lit "py")
     = lit "# File Name: a/b.py" ++ [c_newline]
       ++ lit "# File Contents:" ++ [c_newline]
       ++ lit "```py" ++ [c_newline]
       ++ print_hi ++ [c_newline]
       ++ lit "```" ++ [c_newline] ++ [c_newline].
Proof.
  split; [|split; [|split]].
  - unfold render. destruct (truthy g); now rewrite <- !app_assoc.
  - unfold render. destruct (truthy g).
    + exists (lit "# File Name: " ++ p ++ [c_newline] ++ lit "# File Contents:"
              ++ [c_newline] ++ lit "```" ++ g ++ [c_newline]).
      exists ([c_newline] ++ lit "```" ++ [c_newline; c_newline]).
      split; [now rewrite <- !app_assoc|].
      exists ([c_newline] ++ lit "```"). now rewrite <- !app_assoc.
    + exists (lit "# File Name: " ++ p ++ [c_newline] ++ lit "# File Contents:"
              ++ [c_newline]).
      exists [c_newline; c_newline].
      split; [now rewrite <- !app_assoc|].
      now exists [].
  - intros w input output Hr Hw.
    unfold generate_markdown_from_file, open_read, open_write, log, emit,
      try_except, bind, ret.
    rewrite Hr, Hw. reflexivity.
  - reflexivity.
Qed.

Lemma render_exact_witness :
  generate_markdown_from_file world_ok
    [lit "in"; lit "a"; lit "b.py"] [lit "out"; lit "a"; lit "a_b_py.txt"]
    (lit "a/b.py") (lit "py")
  = ([OpenRead [lit "in"; lit "a"; lit "b.py"];
      WriteFile [lit "out"; lit "a"; lit "a_b_py.txt"]
        (render (lit "a/b.py") print_hi (lit "py"));
      Log INFO [lit "out"; lit "a"; lit "a_b_py.txt"]], inr tt).
Proof.
  apply (proj1 (proj2 (proj2 (render_exact (lit "a/b.py") print_hi (lit "py"))))
           world_ok);
    reflexivity.
Defined.

(** C10: when reading the input raises, [generate_markdown_from_file]
    has opened nothing for writing: its only events are the attempt to
    read and one log record, and it returns.  In every case the first
    thing it does is to open the input. *)
Theorem generate_markdown_from_file_read_failure (w : world)
    (input output : list (list N)) (rel_path language : list N) (e : exn) :
  read_text w input = inl e ->
  generate_markdown_from_file w input output rel_path language
  = ([OpenRead input;
      Log (match e with UnicodeDecodeError => WARNING | _ => ERROR end)
        input],
     inr tt)
  /\ (forall p content,
        ~ In (WriteFile p content)
            (events (generate_markdown_from_file w input output rel_path
                       language)))
  /\ (forall (w' : world),
        exists evs,
          events (generate_markdown_from_file w' input output rel_path
                    language)
          = OpenRead input :: evs).
Proof.
  intros Hr.
  assert (E : generate_markdown_from_file w input output rel_path language
              = ([OpenRead input;
                  Log (match e with
                       | UnicodeDecodeError => WARNING
                       | _ => ERROR
                       end) input], inr tt)).
  { unfold generate_markdown_from_file, open_read, open_write, log, emit,
      try_except, bind, ret, raise.
    rewrite Hr. destruct e; reflexivity. }
  split; [exact E|]. split.
  - intros p content. rewrite E. simpl.
    intros [H|[H|[]]]; discriminate.
  - intros w'.
    unfold generate_markdown_from_file, open_read, open_write, log, emit,
      try_except, bind, ret, raise, events.
    destruct (read_text w' input) as [e'|contents].
    + destruct e'; simpl; eexists; reflexivity.
    + destruct (can_write w' output); simpl; eexists; reflexivity.
Qed.

Lemma generate_markdown_from_file_read_failure_witness :
  generate_markdown_from_file world_undecodable
    [lit "in"; lit "logo.png"] [lit "out"; lit "logo_png.txt"]
    (lit "logo.png") (lit "png")
  = ([OpenRead [lit "in"; lit "logo.png"];
      Log WARNING [lit "in"; lit "logo.png"]], inr tt).
Proof.
  apply (generate_markdown_from_file_read_failure world_undecodable
           [lit "in"; lit "logo.png"] [lit "out"; lit "logo_png.txt"]
           (lit "logo.png") (lit "png") UnicodeDecodeError).
  reflexivity.
Defined.

(** ** Computations *)

Section MonadFacts.
Context {A B : Type}.

Lemma events_bind_in (m : M A) (f : A -> M B) ev :
  In ev (events (bind m f)) ->
  In ev (events m) \/ exists a, outcome m = inr a /\ In ev (events (f a)).
Proof.
  destruct m as [evs [e|a]]; simpl; [tauto|].
  destruct (f a) as [evs' r] eqn:E. simpl. rewrite in_app_iff.
  intros [H|H]; [tauto|]. right. exists a. rewrite E. auto.
Qed.

Lemma events_bind_left (m : M A) (f : A -> M B) ev :
  In ev (events m) -> In ev (events (bind m f)).
Proof.
  destruct m as [evs [e|a]]; simpl; [tauto|].
  destruct (f a) as [evs' r]. simpl. rewrite in_app_iff. tauto.
Qed.

Lemma events_bind_right (m : M A) (f : A -> M B) a ev :
  outcome m = inr a -> In ev (events (f a)) -> In ev (events (bind m f)).
Proof.
  destruct m as [evs [e|a']]; simpl; [discriminate|].
  intros [= ->]. destruct (f a) as [evs' r]. simpl. rewrite in_app_iff. tauto.
Qed.

Lemma outcome_bind (m : M A) (f : A -> M B) a :
  outcome m = inr a -> outcome (bind m f) = outcome (f a).
Proof.
  destruct m as [evs [e|a']]; simpl; [discriminate|].
  intros [= ->]. now destruct (f a).
Qed.

Lemma bind_value (evs : list event) (a : A) (f : A -> M B) :
  bind (evs, inr a) f = (evs ++ events (f a), outcome (f a)).
Proof. simpl. now destruct (f a). Qed.

End MonadFacts.

Section ForEachFacts.
Context {A B : Type}.
Variable body : B -> A -> M B.

Lemma for_each_events_in l : forall b ev,
  In ev (events (for_each l body b)) ->
  exists a b', In a l /\ In ev (events (body b' a)).
Proof.
  induction l as [|a l IH]; intros b ev H; simpl in H; [contradiction|].
  apply events_bind_in in H as [H|[b' [_ H]]].
  - exists a, b. simpl. auto.
  - destruct (IH _ _ H) as [a' [b'' [Ha' Hev]]].
    exists a', b''. simpl. auto.
Qed.

Lemma for_each_returns l :
  (forall b a, In a l -> exists b', outcome (body b a) = inr b') ->
  forall b, exists b', outcome (for_each l body b) = inr b'.
Proof.
  induction l as [|a l IH]; intros Hok b; simpl.
  - now exists b.
  - destruct (Hok b a (or_introl eq_refl)) as [b1 Hb1].
    rewrite (outcome_bind _ _ _ Hb1).
    apply IH. intros b0 a0 Ha0. apply Hok. now right.
Qed.

Lemma for_each_events_complete l a ev :
  (forall b a, In a l -> exists b', outcome (body b a) = inr b') ->
  In a l ->
  (forall b, In ev (events (body b a))) ->
  forall b, In ev (events (for_each l body b)).
Proof.
  induction l as [|a0 l IH]; intros Hok Ha Hev b; [contradiction|].
  simpl. destruct Ha as [->|Ha].
  - apply events_bind_left, Hev.
  - destruct (Hok b a0 (or_introl eq_refl)) as [b1 Hb1].
    apply (events_bind_right _ _ b1); [exact Hb1|].
    apply IH; auto. intros b0 a1 Ha1. apply Hok. now right.
Qed.

(** A loop whose every turn returns and appends to the carried list. *)
Lemma for_each_appends (evs_of : A -> list event) (out_of : A -> B -> B) l :
  (forall b a, In a l -> body b a = (evs_of a, inr (out_of a b))) ->
  forall b,
    for_each l body b
    = (flat_map evs_of l, inr (fold_left (fun b a => out_of a b) l b)).
Proof.
  induction l as [|a l IH]; intros Hok b; [reflexivity|].
  cbn [for_each flat_map fold_left].
  rewrite (Hok b a (or_introl eq_refl)), bind_value.
  rewrite IH by (intros b0 a0 Ha0; apply Hok; now right).
  reflexivity.
Qed.

End ForEachFacts.

(** ** ConversionPipeline *)

Lemma join_snoc (sep : list N) (init : list (list N)) (last : list N) :
  join sep (init ++ [last]) = flat_map (fun f => f ++ sep) init ++ last.
Proof.
  induction init as [|x init IH]; [reflexivity|].
  cbn [app flat_map]. rewrite <- app_assoc, <- IH.
  destruct init; simpl; now rewrite <- ?app_assoc.
Qed.

Lemma fold_left_append {A} (g : A -> list (list N)) (l : list A) :
  forall b, fold_left (fun b a => b ++ g a) l b = b ++ flat_map g l.
Proof.
  induction l as [|a l IH]; intros b; simpl.
  - now rewrite app_nil_r.
  - now rewrite IH, app_assoc.
Qed.

Section PipelineFacts.
Context {U : Unicode}.
Variable w : world.
Variables (input_dir output_dir : list (list N)) (extensions : list (list N))
  (exclude_dirs : list (list N)).

Lemma process_file_single root acc file :
  process_file w input_dir output_dir extensions true root acc file
  = (read_events w extensions root file,
     inr (acc ++ fragment w input_dir extensions root file)).
Proof.
  unfold process_file, read_events, fragment, included, selected.
  destruct (mem file [lit ".DS_Store"; lit ".env"]); cbn [negb andb].
  - now rewrite app_nil_r.
  - destruct (mem (lower (snd (splitext file))) extensions
              || negb (truthy (lower (snd (splitext file))))
                 && mem file extensions).
    + cbn [negb]. unfold try_except, open_read, log, emit, bind, ret, raise.
      destruct (read_text w (root ++ [file])) as [[| |]|contents]; simpl;
        now rewrite ?app_nil_r.
    + now rewrite app_nil_r.
Qed.

Lemma process_directory_single acc step :
  process_directory w input_dir output_dir extensions true exclude_dirs acc step
  = (walk_events w extensions exclude_dirs step,
     inr (acc ++ (let '(root, _, files) := step in
                  if should_exclude_directory root exclude_dirs then []
                  else flat_map (fragment w input_dir extensions root) files))).
Proof.
  destruct step as [[root dirs] files]. unfold process_directory, walk_events.
  destruct (should_exclude_directory root exclude_dirs).
  - now rewrite app_nil_r.
  - rewrite (for_each_appends _ (read_events w extensions root)
               (fun file acc =>
                  acc ++ fragment w input_dir extensions root file)).
    + now rewrite fold_left_append.
    + intros b a _. apply process_file_single.
Qed.

Lemma walk_single top :
  for_each (os_walk input_dir top)
    (process_directory w input_dir output_dir extensions true exclude_dirs) []
  = (flat_map (walk_events w extensions exclude_dirs) (os_walk input_dir top),
     inr (fragments w input_dir extensions exclude_dirs top)).
Proof.
  rewrite (for_each_appends _ (walk_events w extensions exclude_dirs)
             (fun step acc =>
                acc ++ (let '(root, _, files) := step in
                        if should_exclude_directory root exclude_dirs then []
                        else flat_map (fragment w input_dir extensions root)
                               files))).
  - now rewrite fold_left_append.
  - intros b a _. apply process_directory_single.
Qed.

Lemma walk_events_no_write top p c :
  ~ In (WriteFile p c)
      (flat_map (walk_events w extensions exclude_dirs)
         (os_walk input_dir top)).
Proof.
  rewrite in_flat_map. intros [[[root dirs] files] [_ H]].
  unfold walk_events in H.
  destruct (should_exclude_directory root exclude_dirs).
  - destruct H as [H|[]]; discriminate.
  - apply in_flat_map in H as [file [_ H]]. unfold read_events in H.
    destruct (included extensions file); [|contradiction].
    destruct H as [H|H]; [discriminate|].
    destruct (read_text w (root ++ [file])) as [[| |]|contents];
      simpl in H; intuition discriminate.
Qed.

End PipelineFacts.

Lemma generate_tree_output_writes (w : world) directory top out excl p c :
  In (WriteFile p c) (events (generate_tree_output w directory top out excl)) ->
  p = out.
Proof.
  unfold generate_tree_output, open_write, log, emit.
  destruct (can_write w out); simpl; [|tauto].
  intros [H|[H|[]]]; [|discriminate]. now inversion H.
Qed.

(** C6: in single-file mode, when the output directory can be made and
    [all_files.txt] opened, the run writes [all_files.txt] once, after
    the walk and before the tree, and its content is the fragments of
    the files read without error, in walk order, joined by ["---\n"],
    the four characters [45; 45; 45; 10]: every fragment but the last
    is followed by these four characters and the last by nothing. *)
Theorem single_file_output (U : Unicode) (w : world)
    (input_dir output_dir extensions exclude_dirs : list (list N))
    (top : list entry) :
  can_mkdir w output_dir = true ->
  can_write w (output_dir ++ [lit "all_files.txt"]) = true ->
  let frags := fragments w input_dir extensions exclude_dirs top in
  (exists before after,
      events (generate_markdown_from_directory w input_dir output_dir
                extensions true exclude_dirs top)
      = before
        ++ WriteFile (output_dir ++ [lit "all_files.txt"])
             (join [45; 45; 45; 10] frags)
        :: after
      /\ (forall p c, ~ In (WriteFile p c) before)
      /\ (forall p c, In (WriteFile p c) after ->
                      p = output_dir ++ [lit "directory_tree.txt"]))
  /\ (forall init last, frags = init ++ [last] ->
        join [45; 45; 45; 10] frags
        = flat_map (fun f => f ++ [45; 45; 45; 10]) init ++ last)
  /\ (frags = [] -> join [45; 45; 45; 10] frags = []).
Proof.
  intros Hmk Hwr frags.
  assert (Hsep : separator = [45; 45; 45; 10]) by reflexivity.
  rewrite <- Hsep. clear Hsep. split; [|split].
  - exists ([Makedirs output_dir]
            ++ flat_map (walk_events w extensions exclude_dirs)
                 (os_walk input_dir top)).
    exists (Log INFO (output_dir ++ [lit "all_files.txt"])
            :: events (generate_tree_output w input_dir top
                         (output_dir ++ [lit "directory_tree.txt"])
                         exclude_dirs)).
    split; [|split].
    + unfold generate_markdown_from_directory, makedirs.
      rewrite Hmk. unfold emit. rewrite bind_value.
      rewrite walk_single. fold frags. rewrite bind_value.
      change (path_div output_dir (lit "all_files.txt"))
        with (output_dir ++ [lit "all_files.txt"]).
      change (path_div output_dir (lit "directory_tree.txt"))
        with (output_dir ++ [lit "directory_tree.txt"]).
      unfold open_write at 1. rewrite Hwr. unfold log, emit.
      destruct (generate_tree_output w input_dir top
                  (output_dir ++ [lit "directory_tree.txt"]) exclude_dirs)
        as [tevs tr].
      simpl. now rewrite <- app_assoc.
    + intros p c [H|H]; [discriminate|].
      now apply walk_events_no_write in H.
    + intros p c [H|H]; [discriminate|].
      now apply generate_tree_output_writes in H.
  - intros init last E. rewrite E. apply join_snoc.
  - intros E. now rewrite E.
Qed.

Lemma single_file_output_witness :
  join [45; 45; 45; 10]
    (@fragments py_unicode world_ok [lit "in"] [lit ".py"] [] sample_tree)
  = flat_map (fun f => f ++ [45; 45; 45; 10])
      [render (lit "a.py") print_hi (lit "py")]
    ++ render (lit "s/b.PY") print_hi (lit "py").
Proof.
  apply (proj1 (proj2 (single_file_output py_unicode world_ok [lit "in"]
                         [lit "out"] [lit ".py"] [] sample_tree
                         eq_refl eq_refl))).
  reflexivity.
Defined.

Lemma generate_markdown_from_file_shape (w : world) input output rel language :
  exists evs,
    generate_markdown_from_file w input output rel language
    = (OpenRead input :: evs, inr tt)
    /\ forall p, ~ In (OpenRead p) evs.
Proof.
  unfold generate_markdown_from_file, open_read, open_write, log, emit,
    try_except, bind, ret, raise.
  destruct (read_text w input) as [[| |]|contents]; simpl;
    try (eexists; split; [reflexivity|]; intros p [H|[]]; discriminate).
  destruct (can_write w output); simpl.
  - eexists; split; [reflexivity|]. intros p [H|[H|[]]]; discriminate.
  - eexists; split; [reflexivity|]. intros p [H|[]]; discriminate.
Qed.

(** The tests of lines 242 and 244, in words. *)
Lemma included_spec {U : Unicode} (extensions : list (list N)) (file : list N) :
  included extensions file = true
  <-> file <> lit ".DS_Store" /\ file <> lit ".env"
      /\ (In (lower (snd (splitext file))) extensions
          \/ (snd (splitext file) = [] /\ In file extensions)).
Proof.
  unfold included, selected.
  rewrite andb_true_iff, negb_true_iff, orb_true_iff, andb_true_iff,
    negb_true_iff, !mem_In.
  assert (Hskip : mem file [lit ".DS_Store"; lit ".env"] = false
                  <-> file <> lit ".DS_Store" /\ file <> lit ".env").
  { unfold mem. cbn [existsb]. rewrite orb_false_r, orb_false_iff.
    rewrite !str_eqb_neq. tauto. }
  assert (Hempty : truthy (lower (snd (splitext file))) = false
                   <-> snd (splitext file) = []).
  { split.
    - destruct (lower (snd (splitext file))) eqn:E; [|discriminate].
      intros _. now apply lower_empty.
    - intros ->. now rewrite (lower_ascii []). }
  rewrite Hskip, Hempty. tauto.
Qed.

Section ContentPass.
Context {U : Unicode}.
Variable w : world.
Variables (input_dir output_dir : list (list N)) (extensions : list (list N))
  (single_file : bool) (exclude_dirs : list (list N)).

Let run_file := process_file w input_dir output_dir extensions single_file.
Let run_directory :=
  process_directory w input_dir output_dir extensions single_file exclude_dirs.

Lemma process_file_reads root acc file p :
  In (OpenRead p) (events (run_file root acc file)) ->
  p = root ++ [file] /\ included extensions file = true.
Proof.
  unfold run_file, process_file, included, selected.
  destruct (mem file [lit ".DS_Store"; lit ".env"]); cbn [negb andb];
    [intros []|].
  destruct (mem (lower (snd (splitext file))) extensions
            || negb (truthy (lower (snd (splitext file))))
               && mem file extensions); [|intros []].
  destruct single_file; cbn [negb].
  - unfold try_except, open_read, log, emit, bind, ret, raise.
    destruct (read_text w (root ++ [file])) as [[| |]|contents]; simpl;
      intros H; repeat destruct H as [H|H]; try discriminate;
      try contradiction; now inversion H.
  - unfold makedirs.
    destruct (can_mkdir w _); [|intros []].
    destruct (generate_markdown_from_file_shape w (root ++ [file])
                (with_name
                   (path_div output_dir (relpath (root ++ [file]) input_dir))
                   (sanitise_filename (relpath (root ++ [file]) input_dir)
                    ++ lit ".txt"))
                (relpath (root ++ [file]) input_dir)
                (skipn 1 (lower (snd (splitext file)))))
      as [evs [E Hno]].
    unfold emit. rewrite bind_value, E. simpl.
    rewrite app_nil_r.
    intros [H|[H|H]]; [discriminate H| now inversion H | now apply Hno in H].
Qed.

Lemma process_file_complete root acc file :
  walk_unhindered w single_file ->
  (exists acc', outcome (run_file root acc file) = inr acc')
  /\ (included extensions file = true ->
      In (OpenRead (root ++ [file])) (events (run_file root acc file))).
Proof.
  intros Hw. unfold walk_unhindered in Hw.
  unfold run_file, process_file, included, selected.
  destruct (mem file [lit ".DS_Store"; lit ".env"]); cbn [negb andb];
    [split; [now eexists | discriminate]|].
  destruct (mem (lower (snd (splitext file))) extensions
            || negb (truthy (lower (snd (splitext file))))
               && mem file extensions);
    [|split; [now eexists | discriminate]].
  destruct single_file; cbn [negb].
  - unfold try_except, open_read, log, emit, bind, ret, raise.
    destruct (read_text w (root ++ [file])) as [[| |]|contents]; simpl;
      (split; [now eexists | auto]).
  - destruct Hw as [Hw|Hw]; [discriminate|].
    unfold makedirs. rewrite Hw.
    destruct (generate_markdown_from_file_shape w (root ++ [file])
                (with_name
                   (path_div output_dir (relpath (root ++ [file]) input_dir))
                   (sanitise_filename (relpath (root ++ [file]) input_dir)
                    ++ lit ".txt"))
                (relpath (root ++ [file]) input_dir)
                (skipn 1 (lower (snd (splitext file)))))
      as [evs [E Hno]].
    unfold emit. rewrite bind_value, E. simpl.
    split; [now eexists | auto].
Qed.

Lemma process_directory_reads acc step p :
  In (OpenRead p) (events (run_directory acc step)) ->
  exists file,
    should_exclude_directory (fst (fst step)) exclude_dirs = false
    /\ In file (snd step)
    /\ p = fst (fst step) ++ [file]
    /\ included extensions file = true.
Proof.
  destruct step as [[root dirs] files].
  unfold run_directory, process_directory. cbn [fst snd].
  destruct (should_exclude_directory root exclude_dirs).
  - simpl. intros [H|[]]. discriminate.
  - intros H. apply for_each_events_in in H as [file [acc' [Hf H]]].
    apply process_file_reads in H as [-> Hi].
    exists file. auto.
Qed.

Lemma process_directory_complete acc root dirs files :
  walk_unhindered w single_file ->
  (exists acc', outcome (run_directory acc (root, dirs, files)) = inr acc')
  /\ (forall file,
        should_exclude_directory root exclude_dirs = false ->
        In file files -> included extensions file = true ->
        In (OpenRead (root ++ [file]))
          (events (run_directory acc (root, dirs, files)))).
Proof.
  intros Hw. unfold run_directory, process_directory.
  destruct (should_exclude_directory root exclude_dirs).
  - split; [now eexists | discriminate].
  - split.
    + apply for_each_returns. intros b a _.
      apply (process_file_complete root b a Hw).
    + intros file _ Hf Hi.
      apply (for_each_events_complete _ files file); auto.
      * intros b a _. apply (process_file_complete root b a Hw).
      * intros b. now apply (process_file_complete root b file Hw).
Qed.

Lemma run_reads top p :
  In (OpenRead p)
    (events (generate_markdown_from_directory w input_dir output_dir
               extensions single_file exclude_dirs top)) ->
  exists root dirs files file,
    In (root, dirs, files) (os_walk input_dir top)
    /\ should_exclude_directory root exclude_dirs = false
    /\ In file files
    /\ p = root ++ [file]
    /\ included extensions file = true.
Proof.
  unfold generate_markdown_from_directory. intros H.
  apply events_bind_in in H as [H|[_ [_ H]]].
  { unfold makedirs, emit, raise in H.
    destruct (can_mkdir w output_dir); simpl in H; intuition discriminate. }
  apply events_bind_in in H as [H|[all [_ H]]].
  - apply for_each_events_in in H as [[[root dirs] files] [acc [Hs H]]].
    apply process_directory_reads in H as [file [He [Hf [-> Hi]]]].
    exists root, dirs, files, file. auto.
  - exfalso. apply events_bind_in in H as [H|[_ [_ H]]].
    + destruct single_file; [|contradiction].
      apply events_bind_in in H as [H|[_ [_ H]]].
      * unfold open_write, emit, raise in H.
        destruct (can_write w _); simpl in H; intuition discriminate.
      * simpl in H. intuition discriminate.
    + unfold generate_tree_output, open_write, log, emit, raise in H.
      destruct (can_write w _); simpl in H; intuition discriminate.
Qed.

Lemma run_reads_complete top root dirs files file :
  can_mkdir w output_dir = true ->
  walk_unhindered w single_file ->
  In (root, dirs, files) (os_walk input_dir top) ->
  should_exclude_directory root exclude_dirs = false ->
  In file files ->
  included extensions file = true ->
  In (OpenRead (root ++ [file]))
    (events (generate_markdown_from_directory w input_dir output_dir
               extensions single_file exclude_dirs top)).
Proof.
  intros Hmk Hw Hs He Hf Hi.
  unfold generate_markdown_from_directory, makedirs. rewrite Hmk.
  apply (events_bind_right _ _ tt); [reflexivity|].
  apply events_bind_left.
  apply (for_each_events_complete _ _ (root, dirs, files)); auto.
  - intros b [[r d] f] _. apply (process_directory_complete b r d f Hw).
  - intros b. now apply (process_directory_complete b root dirs files Hw).
Qed.

End ContentPass.

(** C8: the content pass opens a file of a walked directory that is not
    excluded exactly when its name is neither [.DS_Store] nor [.env] and
    either its lower-cased extension is selected or it has no extension
    and its name is selected; [.DS_Store] and [.env] are never opened,
    whatever is selected. *)
Theorem content_pass_selection (U : Unicode) (w : world)
    (input_dir output_dir extensions : list (list N)) (single_file : bool)
    (exclude_dirs : list (list N)) (top : list entry) :
  let run :=
    generate_markdown_from_directory w input_dir output_dir extensions
      single_file exclude_dirs top in
  (forall p, In (OpenRead p) (events run) ->
     path_name p <> lit ".DS_Store" /\ path_name p <> lit ".env")
  /\ (can_mkdir w output_dir = true ->
      walk_unhindered w single_file ->
      forall root dirs files file,
        In (root, dirs, files) (os_walk input_dir top) ->
        should_exclude_directory root exclude_dirs = false ->
        In file files ->
        (In (OpenRead (root ++ [file])) (events run)
         <-> file <> lit ".DS_Store" /\ file <> lit ".env"
             /\ (In (lower (snd (splitext file))) extensions
                 \/ (snd (splitext file) = [] /\ In file extensions)))).
Proof.
  intros run. split.
  - intros p H.
    apply run_reads in H as [root [dirs [files [file [_ [_ [_ [-> Hi]]]]]]]].
    apply included_spec in Hi as [H1 [H2 _]].
    unfold path_name. rewrite last_last. auto.
  - intros Hmk Hw root dirs files file Hs He Hf.
    rewrite <- included_spec. split.
    + intros H.
      apply run_reads in H
        as [root' [dirs' [files' [file' [_ [_ [_ [E Hi]]]]]]]].
      apply app_inj_tail in E as [_ ->]. exact Hi.
    + intros Hi. now apply (run_reads_complete w _ _ _ _ _ _ root dirs files).
Qed.

Lemma content_pass_selection_witness :
  In (OpenRead ([lit "in"; lit "s"] ++ [lit "b.PY"]))
    (events (@generate_markdown_from_directory py_unicode world_ok
               [lit "in"] [lit "out"] [lit ".py"] false [] sample_tree))
  <-> lit "b.PY" <> lit ".DS_Store" /\ lit "b.PY" <> lit ".env"
      /\ (In (@lower py_unicode (snd (splitext (lit "b.PY")))) [lit ".py"]
          \/ (snd (splitext (lit "b.PY")) = [] /\ In (lit "b.PY") [lit ".py"])).
Proof.
  apply (proj2 (content_pass_selection py_unicode world_ok [lit "in"]
                  [lit "out"] [lit ".py"] false [] sample_tree)
           eq_refl (or_intror (fun _ => eq_refl))
           [lit "in"; lit "s"] [] [lit "README"; lit "b.PY"] (lit "b.PY")).
  - right. left. reflexivity.
  - reflexivity.
  - right. left. reflexivity.
Defined.

(** ** Paths *)

Lemma path_name_snoc (d : list (list N)) (n : list N) :
  path_name (d ++ [n]) = n.
Proof. unfold path_name. apply last_last. Qed.

Lemma should_exclude_name (d : list (list N)) (n : list N) excl :
  should_exclude_directory (d ++ [n]) excl = should_exclude_directory [n] excl.
Proof.
  unfold should_exclude_directory. now rewrite path_name_snoc.
Qed.

Lemma rfind_spec (c : N) (s : list N) :
  (rfind c s = (-1)%Z /\ ~ In c s)
  \/ exists a b,
       s = a ++ c :: b /\ ~ In c b /\ rfind c s = Z.of_nat (length a).
Proof.
  induction s as [|x s IH]; [left; simpl; tauto|].
  cbn [rfind]. destruct IH as [[E Hn]|[a [b [-> [Hn E]]]]].
  - rewrite E. simpl (0 <=? -1)%Z. cbv iota.
    destruct (N.eqb_spec x c) as [->|Hne].
    + right. exists [], s. auto.
    + left. split; [reflexivity|]. simpl. intros [H|H]; auto.
  - right. rewrite E.
    replace (0 <=? Z.of_nat (length a))%Z with true
      by (symmetry; apply Z.leb_le; lia).
    exists (x :: a), b. repeat split; auto. simpl length. lia.
Qed.

Lemma count_occ_not_In_0 (c : N) (s : list N) :
  ~ In c s -> count_occ N.eq_dec s c = 0%nat.
Proof. apply count_occ_not_In. Qed.

(** An extension has its dot in front and no other. *)
Lemma splitext_ext_dots (p : list N) :
  (count_occ N.eq_dec (snd (splitext p)) c_dot <= 1)%nat.
Proof.
  unfold splitext.
  destruct ((rfind c_slash p <? rfind c_dot p)%Z
            && existsb (fun c => negb (c =? c_dot))
                 (slice p (rfind c_slash p + 1) (rfind c_dot p))) eqn:C;
    [|simpl; lia].
  apply andb_true_iff in C as [Hlt _]. apply Z.ltb_lt in Hlt.
  destruct (rfind_spec c_slash p) as [[Es _]|[a' [b' [_ [_ Es]]]]];
    (destruct (rfind_spec c_dot p) as [[Ed _]|[a [b [Ep [Hn Ed]]]]];
     [lia|]);
    cbn [snd]; rewrite Ed, Nat2Z.id; rewrite Ep at 1;
    rewrite skipn_app, Nat.sub_diag, skipn_all; cbn [skipn app count_occ];
    rewrite (count_occ_not_In_0 _ _ Hn);
    destruct (N.eq_dec c_dot c_dot); lia.
Qed.

(** A name that starts with a dot and has an extension has two dots. *)
Lemma dotfile_ext_dots (f : list N) :
  startswith_dot f = true -> snd (splitext f) <> [] ->
  (2 <= count_occ N.eq_dec f c_dot)%nat.
Proof.
  intros Hdot Hext. unfold splitext in Hext.
  destruct ((rfind c_slash f <? rfind c_dot f)%Z
            && existsb (fun c => negb (c =? c_dot))
                 (slice f (rfind c_slash f + 1) (rfind c_dot f))) eqn:C;
    [|now elim Hext].
  apply andb_true_iff in C as [Hlt Hex]. apply Z.ltb_lt in Hlt.
  assert (Hsep : (-1 <= rfind c_slash f)%Z).
  { destruct (rfind_spec c_slash f) as [[Es _]|[a' [b' [_ [_ Es]]]]]; lia. }
  destruct (rfind_spec c_dot f) as [[Ed _]|[a [b [Ep [Hn Ed]]]]]; [lia|].
  destruct a as [|x a].
  - exfalso. rewrite Ed in Hex. unfold slice in Hex. simpl length in Hex.
    replace (Z.to_nat (Z.of_nat 0 - (rfind c_slash f + 1))) with 0%nat in Hex
      by lia.
    discriminate.
  - rewrite Ep in Hdot |- *. simpl in Hdot. apply N.eqb_eq in Hdot. subst x.
    cbn [app count_occ]. destruct (N.eq_dec c_dot c_dot); [|congruence].
    rewrite count_occ_app. cbn [count_occ].
    destruct (N.eq_dec c_dot c_dot); [lia|congruence].
Qed.

(** ** ExtensionCatalog *)

Lemma visible_incl excl cs cs' e :
  (forall c, In c cs -> In c cs') -> visible excl cs e -> visible excl cs' e.
Proof.
  intros Hin H. destruct H.
  - apply visible_here; auto.
  - eapply visible_below; eauto.
Qed.

Lemma visible_single excl c e :
  visible excl [c] e ->
  should_exclude_directory [entry_name c] excl = false
  /\ (e = c \/ exists n cs, c = Dir n cs /\ visible excl cs e).
Proof.
  intros H. inversion H as [cs e' Hin Hex | cs n cs' e' Hin Hex Hv]; subst.
  - destruct Hin as [->|[]]. auto.
  - destruct Hin as [->|[]]. split; [exact Hex|]. right. eauto.
Qed.

Lemma dict_set_keys d k v k' :
  In k' (keys (dict_set d k v)) <-> In k' (keys d) \/ k' = k.
Proof.
  unfold keys. induction d as [|[k0 v0] d IH]; simpl.
  - intuition.
  - destruct (str_eqb k0 k) eqn:E; simpl.
    + apply str_eqb_eq in E. subst. intuition.
    + rewrite IH. intuition.
Qed.

Section CatalogFacts.
Context {U : Unicode}.
Variable excl : list (list N).

Lemma scan_directory_sound cs :
  Forall (scan_sound excl) cs ->
  forall dir d k,
    In k (keys (_scan_directory excl dir cs d)) ->
    In k (keys d) \/ exists f, visible excl cs (File f) /\ k = key_of f.
Proof.
  unfold _scan_directory.
  induction 1 as [|c cs Hc _ IH]; intros dir d k H; simpl in H; [auto|].
  apply IH in H as [H|[f [Hv ->]]].
  - apply Hc in H as [H|[f [Hv ->]]]; [auto|].
    right. exists f. split; [|reflexivity].
    apply (visible_incl excl [c]); [|exact Hv].
    intros c0 [->|[]]. now left.
  - right. exists f. split; [|reflexivity].
    apply (visible_incl excl cs); [|exact Hv]. intros c0 Hc0. now right.
Qed.

Lemma scan_directory_complete cs :
  Forall (scan_complete excl) cs ->
  forall dir d,
    (forall k, In k (keys d) -> In k (keys (_scan_directory excl dir cs d)))
    /\ (forall f c, In c cs -> visible excl [c] (File f) ->
          In (key_of f) (keys (_scan_directory excl dir cs d))).
Proof.
  unfold _scan_directory.
  induction 1 as [|c cs Hc _ IH]; intros dir d; simpl.
  - split; [auto | intros f c []].
  - destruct (IH dir (scan_entry excl dir c d)) as [IH1 IH2].
    destruct (Hc dir d) as [Hc1 Hc2].
    split; [auto|].
    intros f c0 [<-|Hin] Hv; [auto | eauto].
Qed.

Lemma scan_entry_sound c : scan_sound excl c.
Proof.
  induction c as [n|n cs IH|n] using entry_ind; intros dir d k;
    cbn [scan_entry entry_name]; rewrite should_exclude_name;
    destruct (should_exclude_directory [n] excl) eqn:E; auto.
  - unfold key_of. intros H.
    assert (Hv : visible excl [File n] (File n))
      by (apply visible_here; [now left | exact E]).
    destruct (startswith_dot n) eqn:Es;
      apply dict_set_keys in H as [H| ->]; auto;
      right; exists n; rewrite Es; auto.
  - intros H. apply (scan_directory_sound cs IH) in H as [H|[f [Hv ->]]];
      [auto|].
    right. exists f. split; [|reflexivity].
    apply (visible_below excl _ n cs); [now left | exact E | exact Hv].
Qed.

Lemma visible_split cs e :
  visible excl cs e -> exists c, In c cs /\ visible excl [c] e.
Proof.
  intros H. destruct H as [cs e Hin Hex | cs n cs' e Hin Hex Hv].
  - exists e. split; [exact Hin|]. apply visible_here; [now left | exact Hex].
  - exists (Dir n cs'). split; [exact Hin|].
    apply (visible_below excl _ n cs'); [now left | exact Hex | exact Hv].
Qed.

Lemma scan_entry_complete c : scan_complete excl c.
Proof.
  induction c as [n|n cs IH|n] using entry_ind; intros dir d;
    cbn [scan_entry entry_name]; rewrite should_exclude_name.
  - split.
    + intros k Hk. destruct (should_exclude_directory [n] excl); [exact Hk|].
      destruct (startswith_dot n); apply dict_set_keys; auto.
    + intros f Hv. apply visible_single in Hv as [Hex [Hv|[n' [cs' [Hv _]]]]];
        [|discriminate].
      injection Hv as ->. cbn [entry_name] in Hex. rewrite Hex.
      unfold key_of. destruct (startswith_dot n); apply dict_set_keys; auto.
  - fold (_scan_directory excl (dir ++ [n]) cs d).
    destruct (scan_directory_complete cs IH (dir ++ [n]) d) as [H1 H2].
    split.
    + intros k Hk. destruct (should_exclude_directory [n] excl); auto.
    + intros f Hv. apply visible_single in Hv as [Hex [Hv|[n' [cs' [Hv Hv']]]]];
        [discriminate|].
      injection Hv as -> ->. cbn [entry_name] in Hex. rewrite Hex.
      apply visible_split in Hv' as [c [Hin Hv']]. eauto.
  - split.
    + intros k Hk. now destruct (should_exclude_directory [n] excl).
    + intros f Hv. apply visible_single in Hv as [_ [Hv|[n' [cs' [Hv _]]]]];
        discriminate.
Qed.

(** The catalogue holds the keys of the visible files and no other. *)
Lemma discover_extensions_keys input_dir top k :
  In k (keys (discover_extensions excl input_dir top))
  <-> exists f, visible excl top (File f) /\ k = key_of f.
Proof.
  unfold discover_extensions. split.
  - intros H. apply scan_directory_sound in H as [[]|H]; [exact H|].
    apply Forall_forall. intros c _. apply scan_entry_sound.
  - intros [f [Hv ->]].
    apply visible_split in Hv as [c [Hin Hv]].
    apply (scan_directory_complete top) with (c := c); auto.
    apply Forall_forall. intros c0 _. apply scan_entry_complete.
Qed.

End CatalogFacts.

(** C9: a name [f] that starts with a dot and has an extension is its
    own catalogue key wherever a file of that name is scanned, and
    selecting that key alone selects no file at all: the pass opens
    nothing, since the test compares the extension ([.local] for
    [.env.local]) and falls back to the name only when there is none. *)
Theorem dotfile_key_selects_nothing (U : Unicode) (f : list N) :
  startswith_dot f = true ->
  snd (splitext f) <> [] ->
  (forall excl input_dir top,
      visible excl top (File f) ->
      In f (keys (discover_extensions excl input_dir top)))
  /\ (forall g, included [f] g = false)
  /\ (forall w input_dir output_dir single_file excl top p,
        ~ In (OpenRead p)
            (events (generate_markdown_from_directory w input_dir output_dir
                       [f] single_file excl top))).
Proof.
  intros Hdot Hext.
  assert (Hnone : forall g, included [f] g = false).
  { intros g. destruct (included [f] g) eqn:E; [exfalso|reflexivity].
    apply included_spec in E as [_ [_ [[H|[]]|[He [H|[]]]]]].
    - pose proof (dotfile_ext_dots f Hdot Hext) as H2.
      pose proof (splitext_ext_dots g) as H1.
      rewrite H, lower_dots in H2. lia.
    - subst g. contradiction. }
  split; [|split].
  - intros excl input_dir top Hv. apply discover_extensions_keys.
    exists f. split; [exact Hv|]. unfold key_of. now rewrite Hdot.
  - exact Hnone.
  - intros w input_dir output_dir single_file excl top p H.
    apply run_reads in H as [root [dirs [files [file [_ [_ [_ [_ Hi]]]]]]]].
    rewrite Hnone in Hi. discriminate.
Qed.

Lemma dotfile_key_selects_nothing_witness :
  In (lit ".env.local")
    (keys (@discover_extensions py_unicode [] [lit "in"]
             [File (lit "a.py"); File (lit ".env.local")]))
  /\ @included py_unicode [lit ".env.local"] (lit ".env.local") = false.
Proof.
  destruct (dotfile_key_selects_nothing py_unicode (lit ".env.local"))
    as [Hkey [Hnone _]].
  - reflexivity.
  - discriminate.
  - split.
    + apply Hkey. apply visible_here; [right; now left | reflexivity].
    + apply Hnone.
Defined.

(** C2, as it holds: a file whose name does not start with a dot is
    catalogued under its lower-cased extension, the extensions of the
    command line are lower-cased, and a file (in a walked directory that
    is not excluded, not named [.DS_Store] or [.env]) whose extension
    differs from one of them only in letter case is opened.  The name of
    a file that starts with a dot is catalogued as it is, and a file
    without extension is selected by its name as it is written only (or
    by the empty key). *)
Theorem extension_matching_ignores_case (U : Unicode) :
  (forall excl input_dir top k,
      In k (keys (discover_extensions excl input_dir top)) ->
      exists f,
        visible excl top (File f)
        /\ ((startswith_dot f = false /\ k = lower (snd (splitext f)))
            \/ (startswith_dot f = true /\ k = f)))
  /\ (forall args k,
        In k (cli_extensions args) <-> exists a, In a args /\ k = lower a)
  /\ (forall w input_dir output_dir args single_file excl top
             root dirs files file a,
        can_mkdir w output_dir = true ->
        walk_unhindered w single_file ->
        In (root, dirs, files) (os_walk input_dir top) ->
        should_exclude_directory root excl = false ->
        In file files ->
        file <> lit ".DS_Store" -> file <> lit ".env" ->
        In a args ->
        lower (snd (splitext file)) = lower a ->
        In (OpenRead (root ++ [file]))
          (events (generate_markdown_from_directory w input_dir output_dir
                     (cli_extensions args) single_file excl top)))
  /\ (forall extensions file,
        snd (splitext file) = [] ->
        included extensions file = true ->
        In [] extensions \/ In file extensions).
Proof.
  split; [|split; [|split]].
  - intros excl input_dir top k H.
    apply discover_extensions_keys in H as [f [Hv ->]].
    exists f. split; [exact Hv|]. unfold key_of.
    destruct (startswith_dot f); auto.
  - intros args k. unfold cli_extensions. rewrite in_map_iff.
    split; intros [a [H1 H2]]; exists a; auto.
  - intros w input_dir output_dir args single_file excl top
      root dirs files file a Hmk Hw Hs He Hf Hds Henv Ha Hl.
    apply (run_reads_complete w _ _ _ _ _ _ root dirs files); auto.
    apply included_spec. repeat split; auto.
    left. rewrite Hl. unfold cli_extensions. now apply in_map.
  - intros extensions file He Hi.
    apply included_spec in Hi as [_ [_ [H|[_ H]]]]; [left|now right].
    now rewrite He, (lower_ascii []) in H.
Qed.

Lemma extension_matching_ignores_case_witness :
  In (OpenRead [lit "in"; lit "Main.PY"])
    (events (@generate_markdown_from_directory py_unicode world_ok
               [lit "in"] [lit "out"] (@cli_extensions py_unicode [lit ".Py"])
               false [] [File (lit "Main.PY")])).
Proof.
  apply (proj1 (proj2 (proj2 (extension_matching_ignores_case py_unicode)))
           world_ok [lit "in"] [lit "out"] [lit ".Py"] false []
           [File (lit "Main.PY")] [lit "in"] [] [lit "Main.PY"]
           (lit "Main.PY") (lit ".Py")).
  - reflexivity.
  - right. reflexivity.
  - left. reflexivity.
  - reflexivity.
  - left. reflexivity.
  - discriminate.
  - discriminate.
  - left. reflexivity.
  - reflexivity.
Defined.

(** C2 as stated fails for names that start with a dot: [.DS_Store] is
    catalogued under that very key, which is not lower case, and
    [.Gitignore] is not included when [.gitignore] is selected although
    the two differ in letter case only. *)
Lemma dotfile_keys_keep_their_case :
  @discover_extensions py_unicode [] [lit "in"] [File (lit ".DS_Store")]
    = [(lit ".DS_Store", 1%nat)]
  /\ @lower py_unicode (lit ".DS_Store") <> lit ".DS_Store"
  /\ @lower py_unicode (lit ".Gitignore") = lit ".gitignore"
  /\ @included py_unicode (@cli_extensions py_unicode [lit ".gitignore"])
       (lit ".Gitignore") = false
  /\ ~ In (OpenRead [lit "in"; lit ".Gitignore"])
         (events (@generate_markdown_from_directory py_unicode world_ok
                    [lit "in"] [lit "out"]
                    (@cli_extensions py_unicode [lit ".gitignore"])
                    false [] [File (lit ".Gitignore")])).
Proof.
  repeat split; try reflexivity.
  - discriminate.
  - vm_compute. intuition discriminate.
Qed.

(** ** TreeRenderer *)

Lemma In_insert_sorted {A} (leb : A -> A -> bool) (x y : A) (l : list A) :
  In x (insert_sorted leb y l) <-> x = y \/ In x l.
Proof.
  induction l as [|z l IH]; simpl; [intuition|].
  destruct (leb y z); simpl; [intuition|]. rewrite IH. intuition.
Qed.

Lemma In_sorted {A} (leb : A -> A -> bool) (x : A) (l : list A) :
  In x (sorted leb l) <-> In x l.
Proof.
  induction l as [|y l IH]; simpl; [tauto|].
  rewrite In_insert_sorted, IH. intuition.
Qed.

Lemma subtree_of_Dir excl n cs :
  subtree_of excl (Dir n cs)
  = fun p indent => get_tree_structure excl p indent cs.
Proof. reflexivity. Qed.

Section TreeFacts.
Variable excl : list (list N).

Lemma tree_loop_sound cs (entries : list scanned) :
  Forall (tree_sound excl) cs ->
  (forall it, In it entries ->
     In (fst it) cs /\ snd it = subtree_of excl (fst it)) ->
  forall p indent len i row,
    In row (tree_loop excl p indent len i entries) ->
    exists e, visible excl cs e /\ path_name (fst row) = entry_name e.
Proof.
  intros Hcs. induction entries as [|[entry subtree] rest IH];
    intros Hit p indent len i row H; [contradiction|].
  assert (Hrest : forall it, In it rest ->
                    In (fst it) cs /\ snd it = subtree_of excl (fst it))
    by (intros it Hin; apply Hit; now right).
  destruct (Hit (entry, subtree) (or_introl eq_refl)) as [Hin Hsub].
  cbn [fst snd] in Hin, Hsub.
  cbn [tree_loop] in H. rewrite should_exclude_name in H.
  destruct (should_exclude_directory [entry_name entry] excl) eqn:E.
  - eapply IH; eauto.
  - destruct H as [<-|H].
    + exists entry. split; [now apply visible_here|].
      cbn [fst]. apply path_name_snoc.
    + apply in_app_iff in H as [H|H]; [|eapply IH; eauto].
      destruct entry as [n|n cs'|n]; cbn [is_dir] in H; try contradiction.
      rewrite Forall_forall in Hcs. subst subtree.
      apply (Hcs _ Hin) in H as [e [Hv Hn]].
      exists e. split; [|exact Hn].
      now apply (visible_below excl cs n cs').
Qed.

Lemma get_tree_structure_sound_if cs :
  Forall (tree_sound excl) cs ->
  forall p indent row,
    In row (get_tree_structure excl p indent cs) ->
    exists e, visible excl cs e /\ path_name (fst row) = entry_name e.
Proof.
  intros Hcs p indent row H. unfold get_tree_structure in H.
  eapply (tree_loop_sound cs); [exact Hcs | | exact H].
  intros it Hin. apply In_sorted, in_map_iff in Hin as [c [<- Hc]]. auto.
Qed.

Lemma subtree_of_sound c : tree_sound excl c.
Proof.
  induction c as [n|n cs IH|n] using entry_ind; intros p indent row H;
    try contradiction.
  rewrite subtree_of_Dir in H. cbn [children_of].
  now apply (get_tree_structure_sound_if cs IH p indent).
Qed.

(** The tree lists entries that are visible only. *)
Lemma get_tree_structure_visible cs p indent row :
  In row (get_tree_structure excl p indent cs) ->
  exists e, visible excl cs e /\ path_name (fst row) = entry_name e.
Proof.
  apply get_tree_structure_sound_if, Forall_forall.
  intros c _. apply subtree_of_sound.
Qed.

End TreeFacts.

(** ** PathFilter in the three passes *)

(** C1 on [vendored_tree]: the catalogue and the tree leave
    [node_modules] out, but the content pass, which skips the files of
    an excluded directory and still walks below it, opens
    [node_modules/pkg/index.js] and writes a document for it. *)
Theorem content_pass_enters_excluded_directory :
  should_exclude_directory [lit "in"; lit "node_modules"] [] = true
  /\ @discover_extensions py_unicode [] [lit "in"] vendored_tree
     = [(lit ".js", 1%nat)]
  /\ get_tree_structure [] [lit "in"] [] vendored_tree
     = [([lit "in"; lit "main.js"], connector_last)]
  /\ In (OpenRead [lit "in"; lit "node_modules"; lit "pkg"; lit "index.js"])
       (events (@generate_markdown_from_directory py_unicode world_ok
                  [lit "in"] [lit "out"] [lit ".js"] false [] vendored_tree))
  /\ In (WriteFile
           [lit "out"; lit "node_modules"; lit "pkg";
            lit "node_modules_pkg_index_js.txt"]
           (render (lit "node_modules/pkg/index.js") print_hi (lit "js")))
       (events (@generate_markdown_from_directory py_unicode world_ok
                  [lit "in"] [lit "out"] [lit ".js"] false [] vendored_tree))
  /\ @fragments py_unicode world_ok [lit "in"] [lit ".js"] [] vendored_tree
     = [render (lit "main.js") print_hi (lit "js");
        render (lit "node_modules/pkg/index.js") print_hi (lit "js")].
Proof.
  repeat split; try reflexivity.
  - vm_compute. tauto.
  - vm_compute. tauto.
Qed.

(** ** Connectors of the tree *)

(** C4 on a directory that holds [lib] and [node_modules] only: the
    index of the last entry is taken in the list before exclusion, so
    [lib], the last entry that is listed, is drawn with the connector
    of an inner entry and no line of the tree has the closing one. *)
Theorem last_listed_sibling_keeps_inner_connector :
  get_tree_structure [] [lit "in"] []
    [Dir (lit "lib") [File (lit "util.py")]; Dir (lit "node_modules") []]
  = [([lit "in"; lit "lib"], connector_mid);
     ([lit "in"; lit "lib"; lit "util.py"], indent_mid ++ connector_last)]
  /\ tree_text [lit "in"]
       [Dir (lit "lib") [File (lit "util.py")]; Dir (lit "node_modules") []]
       []
     = lit "." ++ [c_newline]
       ++ connector_mid ++ lit "lib" ++ [c_newline]
       ++ indent_mid ++ connector_last ++ lit "util.py" ++ [c_newline]
       ++ [c_newline] ++ lit "1 directories, 1 files".
Proof. split; reflexivity. Qed.

(** * More properties *)

(** ** PathFilter *)

(** X1: whether a path is excluded depends on its last component only:
    it is excluded exactly when that name is one of [.terraform],
    [node_modules], [.git] or one of the names given by the caller, so
    the three defaults apply whatever the caller gives. *)
Theorem should_exclude_directory_by_name (p : list (list N))
    (exclude_dirs : list (list N)) :
  (should_exclude_directory p exclude_dirs = true
   <-> In (path_name p) default_exclude \/ In (path_name p) exclude_dirs)
  /\ (forall q, path_name q = path_name p ->
        should_exclude_directory q exclude_dirs
        = should_exclude_directory p exclude_dirs).
Proof.
  split.
  - unfold should_exclude_directory. rewrite existsb_exists.
    destruct exclude_dirs as [|x l]; cbn [truthy].
    + split.
      * intros [y [Hy E]]. apply str_eqb_eq in E. left. now rewrite E.
      * intros [H|[]]. exists (path_name p). split; [exact H|].
        apply str_eqb_refl.
    + split.
      * intros [y [Hy E]]. apply str_eqb_eq in E. rewrite E.
        now apply in_app_or in Hy.
      * intros H. exists (path_name p). split; [|apply str_eqb_refl].
        now apply in_or_app.
  - intros q E. unfold should_exclude_directory. now rewrite E.
Qed.

(** ** ExtensionCatalog *)

Lemma dict_incr_keys d k :
  keys (dict_incr d k) = if mem k (keys d) then keys d else keys d ++ [k].
Proof.
  unfold dict_incr. generalize (dict_get d k 0 + 1)%nat as v. intros v.
  unfold keys. induction d as [|[k0 v0] d IH]; [reflexivity|].
  cbn [dict_set map fst mem existsb].
  destruct (str_eqb k0 k) eqn:E.
  - apply str_eqb_eq in E. subst. now rewrite str_eqb_refl.
  - replace (str_eqb k k0) with false.
    + cbn [orb map fst]. rewrite IH. fold (mem k (map fst d)).
      now destruct (mem k (map fst d)).
    + symmetry. apply str_eqb_neq. apply str_eqb_neq in E. congruence.
Qed.

Lemma dict_set_get d k v k' default :
  dict_get (dict_set d k v) k' default
  = if str_eqb k k' then v else dict_get d k' default.
Proof.
  induction d as [|[k0 v0] d IH]; cbn [dict_set dict_get].
  - reflexivity.
  - destruct (str_eqb k0 k) eqn:E; cbn [dict_get].
    + apply str_eqb_eq in E. subst. now destruct (str_eqb k k').
    + rewrite IH. destruct (str_eqb k0 k') eqn:E'; [|reflexivity].
      apply str_eqb_eq in E'. subst k0.
      destruct (str_eqb k k') eqn:E2; [|reflexivity].
      apply str_eqb_eq in E2. subst. rewrite str_eqb_refl in E. discriminate.
Qed.

Lemma dict_incr_get d k k' :
  dict_get (dict_incr d k) k' 0
  = (dict_get d k' 0 + if str_eqb k k' then 1 else 0)%nat.
Proof.
  unfold dict_incr. rewrite dict_set_get.
  destruct (str_eqb k k') eqn:E; [|lia].
  apply str_eqb_eq in E. now subst.
Qed.

Lemma dict_get_absent d k default :
  ~ In k (keys d) -> dict_get d k default = default.
Proof.
  unfold keys. induction d as [|[k0 v0] d IH]; cbn; [reflexivity|].
  intros H. destruct (str_eqb k0 k) eqn:E.
  - apply str_eqb_eq in E. tauto.
  - apply IH. tauto.
Qed.

Lemma dict_get_In d k n :
  NoDup (keys d) -> In (k, n) d -> dict_get d k 0 = n.
Proof.
  unfold keys. induction d as [|[k0 v0] d IH]; cbn; [tauto|].
  intros Hnd [H|H].
  - injection H as -> ->. now rewrite str_eqb_refl.
  - inversion Hnd as [|? ? Hnot Hnd']; subst.
    destruct (str_eqb k0 k) eqn:E; [|now apply IH].
    apply str_eqb_eq in E. subst. exfalso. apply Hnot.
    change k with (fst (k, n)). now apply in_map.
Qed.

Lemma dict_set_total d k v :
  NoDup (keys d) ->
  (total (dict_set d k v) + dict_get d k 0 = total d + v)%nat.
Proof.
  unfold total, keys, list_sum. induction d as [|[k0 v0] d IH]; cbn.
  - lia.
  - intros Hnd. inversion Hnd as [|? ? Hnot Hnd']; subst.
    destruct (str_eqb k0 k) eqn:E; cbn.
    + lia.
    + specialize (IH Hnd'). lia.
Qed.

Lemma first_seen_ext l : forall s1 s2,
  (forall x, mem x s1 = mem x s2) -> first_seen s1 l = first_seen s2 l.
Proof.
  induction l as [|k l IH]; intros s1 s2 H; [reflexivity|].
  cbn [first_seen]. rewrite <- (H k). destruct (mem k s1).
  - now apply IH.
  - f_equal. apply IH. intros x. cbn [mem existsb].
    fold (mem x s1) (mem x s2). now rewrite H.
Qed.

Lemma mem_app x l1 l2 : mem x (l1 ++ l2) = mem x l1 || mem x l2.
Proof. unfold mem. apply existsb_app. Qed.

(** The catalogue after a list of keys has been counted into it. *)
Lemma tally_facts (ks : list (list N)) : forall d,
  NoDup (keys d) ->
  let d' := fold_left dict_incr ks d in
  NoDup (keys d')
  /\ (forall k, dict_get d' k 0
                = (dict_get d k 0 + count_occ str_eq_dec ks k)%nat)
  /\ total d' = (total d + length ks)%nat
  /\ keys d' = keys d ++ first_seen (keys d) ks.
Proof.
  induction ks as [|k ks IH]; intros d Hnd d'.
  - subst d'. cbn. repeat split; auto.
    now rewrite app_nil_r.
  - subst d'. cbn [fold_left].
    assert (Hnd1 : NoDup (keys (dict_incr d k))).
    { rewrite dict_incr_keys. destruct (mem k (keys d)) eqn:E; [exact Hnd|].
      apply NoDup_app; [exact Hnd | repeat constructor; intros [] | ].
      intros x Hx [<-|[]]. apply mem_In in Hx. congruence. }
    destruct (IH (dict_incr d k) Hnd1) as [H1 [H2 [H3 H4]]].
    split; [exact H1|]. split; [|split].
    + intros k'. rewrite H2, dict_incr_get. cbn [count_occ].
      destruct (str_eq_dec k k') as [->|Hne].
      * rewrite str_eqb_refl. lia.
      * replace (str_eqb k k') with false; [lia|].
        symmetry. now apply str_eqb_neq.
    + rewrite H3. cbn [length].
      pose proof (dict_set_total d k (dict_get d k 0 + 1) Hnd) as Ht.
      fold (dict_incr d k) in Ht. lia.
    + rewrite H4. clear IH H1 H2 H3 H4.
      rewrite dict_incr_keys. cbn [first_seen].
      destruct (mem k (keys d)) eqn:E; [reflexivity|].
      rewrite <- app_assoc. cbn [app]. do 2 f_equal.
      apply first_seen_ext. intros x. rewrite mem_app.
      cbn [mem existsb]. fold (mem x (keys d)).
      rewrite orb_false_r. apply orb_comm.
Qed.

Section TallyFacts.
Context {U : Unicode}.
Variable excl : list (list N).

Lemma fold_scan_tally cs :
  Forall (fun c => forall dir d,
            scan_entry excl dir c d
            = fold_left dict_incr (map key_of (scanned_entry excl c)) d) cs ->
  forall dir d,
    fold_left (fun exts c => scan_entry excl dir c exts) cs d
    = fold_left dict_incr (map key_of (flat_map (scanned_entry excl) cs)) d.
Proof.
  induction 1 as [|c cs Hc _ IH]; intros dir d; [reflexivity|].
  cbn [fold_left flat_map]. now rewrite map_app, fold_left_app, IH, Hc.
Qed.

Lemma scan_entry_tally c : forall dir d,
  scan_entry excl dir c d
  = fold_left dict_incr (map key_of (scanned_entry excl c)) d.
Proof.
  induction c as [n|n cs IH|n] using entry_ind; intros dir d;
    cbn [scan_entry scanned_entry entry_name]; rewrite should_exclude_name;
    destruct (should_exclude_directory [n] excl); try reflexivity.
  - cbn [map fold_left]. unfold dict_incr, key_of.
    now destruct (startswith_dot n).
  - apply (fold_scan_tally cs IH).
Qed.

Lemma discover_extensions_tally input_dir top :
  discover_extensions excl input_dir top
  = fold_left dict_incr (map key_of (scanned_files excl top)) [].
Proof.
  unfold discover_extensions, _scan_directory, scanned_files.
  apply fold_scan_tally, Forall_forall. intros c _. apply scan_entry_tally.
Qed.

Lemma scanned_entry_visible c : forall f,
  In f (scanned_entry excl c) <-> visible excl [c] (File f).
Proof.
  induction c as [n|n cs IH|n] using entry_ind; intros f;
    cbn [scanned_entry entry_name].
  - split.
    + destruct (should_exclude_directory [n] excl) eqn:E; [intros []|].
      intros [->|[]]. apply visible_here; [now left | exact E].
    + intros H. apply visible_single in H as [Hex [H|[n' [cs' [H _]]]]];
        [|discriminate].
      injection H as ->. cbn [entry_name] in Hex. rewrite Hex. now left.
  - rewrite Forall_forall in IH. split.
    + destruct (should_exclude_directory [n] excl) eqn:E; [intros []|].
      intros H. apply in_flat_map in H as [c [Hc H]].
      apply (IH c Hc) in H.
      apply (visible_below excl _ n cs); [now left | exact E |].
      apply (visible_incl excl [c]); [|exact H].
      intros c0 [->|[]]. exact Hc.
    + intros H. apply visible_single in H as [Hex [H|[n' [cs' [H Hv]]]]];
        [discriminate|].
      injection H as -> ->. cbn [entry_name] in Hex. rewrite Hex.
      apply visible_split in Hv as [c [Hc Hv]].
      apply in_flat_map. exists c. split; [exact Hc|]. now apply IH.
  - split.
    + now destruct (should_exclude_directory [n] excl).
    + intros H. apply visible_single in H as [_ [H|[n' [cs' [H _]]]]];
        discriminate.
Qed.

Lemma scanned_files_visible cs f :
  In f (scanned_files excl cs) <-> visible excl cs (File f).
Proof.
  unfold scanned_files. rewrite in_flat_map. split.
  - intros [c [Hc H]]. apply scanned_entry_visible in H.
    apply (visible_incl excl [c]); [|exact H]. intros c0 [->|[]]. exact Hc.
  - intros H. apply visible_split in H as [c [Hc H]].
    exists c. split; [exact Hc|]. now apply scanned_entry_visible.
Qed.

End TallyFacts.

(** X2: the catalogue has a key exactly for the files that are reached
    without passing an excluded name (their own included): the full name
    of a file that starts with a dot, the lower-cased extension of any
    other.  Nothing below an excluded directory is catalogued, and no
    reachable regular file is missed. *)
Theorem catalogue_lists_visible_files (U : Unicode)
    (excl input_dir : list (list N)) (top : list entry) (k : list N) :
  In k (keys (discover_extensions excl input_dir top))
  <-> exists f,
        visible excl top (File f)
        /\ k = (if startswith_dot f then f else lower (snd (splitext f))).
Proof. apply discover_extensions_keys. Qed.

(** X3: the keys of the catalogue are pairwise distinct and stand in the
    order in which the scan first meets them. *)
Theorem catalogue_keys_first_seen (U : Unicode)
    (excl input_dir : list (list N)) (top : list entry) :
  NoDup (keys (discover_extensions excl input_dir top))
  /\ keys (discover_extensions excl input_dir top)
     = first_seen [] (map key_of (scanned_files excl top)).
Proof.
  rewrite discover_extensions_tally.
  destruct (tally_facts (map key_of (scanned_files excl top)) [])
    as [H1 [_ [_ H4]]]; [constructor|].
  split; [exact H1 | exact H4].
Qed.

(** X4: the count stored with a key is the number of scanned files that
    have this key, it is never zero, the counts add up to the number of
    scanned files, and the scanned files are the regular files reached
    without passing an excluded name. *)
Theorem catalogue_counts (U : Unicode)
    (excl input_dir : list (list N)) (top : list entry) :
  (forall k n,
      In (k, n) (discover_extensions excl input_dir top) ->
      n = count_occ str_eq_dec (map key_of (scanned_files excl top)) k
      /\ (1 <= n)%nat)
  /\ total (discover_extensions excl input_dir top)
     = length (scanned_files excl top)
  /\ (forall f, In f (scanned_files excl top) <-> visible excl top (File f)).
Proof.
  rewrite discover_extensions_tally.
  destruct (tally_facts (map key_of (scanned_files excl top)) [])
    as [H1 [H2 [H3 H4]]]; [constructor|].
  split; [|split].
  - intros k n Hin.
    assert (E : n = count_occ str_eq_dec
                      (map key_of (scanned_files excl top)) k).
    { rewrite <- (dict_get_In _ k n H1 Hin). now rewrite H2. }
    split; [exact E|].
    rewrite E. apply count_occ_In.
    assert (Hk : In k (keys (fold_left dict_incr
                               (map key_of (scanned_files excl top)) [])))
      by (change k with (fst (k, n)); now apply in_map).
    rewrite H4 in Hk. cbn [keys map app] in Hk.
    clear - Hk. revert Hk. generalize (@nil (list N)).
    induction (map key_of (scanned_files excl top)) as [|x l IH];
      intros seen Hk; [contradiction|].
    cbn [first_seen] in Hk. destruct (mem x seen).
    + right. now apply (IH seen).
    + destruct Hk as [->|Hk]; [now left | right; now apply (IH (x :: seen))].
  - rewrite H3. cbn. now rewrite length_map.
  - apply scanned_files_visible.
Qed.

(** X5: when every key of the catalogue is selected, the content pass
    takes every scanned file but [.DS_Store], [.env] and the files whose
    name starts with a dot and has an extension. *)
Theorem all_keys_select_scanned_files (U : Unicode)
    (excl input_dir : list (list N)) (top : list entry) (f : list N) :
  visible excl top (File f) ->
  f <> lit ".DS_Store" -> f <> lit ".env" ->
  startswith_dot f = false \/ snd (splitext f) = [] ->
  included (keys (discover_extensions excl input_dir top)) f = true.
Proof.
  intros Hv Hds Henv Hshape.
  assert (Hk : In (key_of f) (keys (discover_extensions excl input_dir top)))
    by (apply discover_extensions_keys; now exists f).
  apply included_spec. repeat split; auto.
  unfold key_of in Hk. destruct (startswith_dot f) eqn:Es.
  - destruct Hshape as [H|H]; [discriminate|]. right. auto.
  - now left.
Qed.

Lemma all_keys_select_scanned_files_witness :
  @included py_unicode
    (keys (@discover_extensions py_unicode [] [lit "in"] sample_tree))
    (lit "README") = true.
Proof.
  apply (all_keys_select_scanned_files py_unicode [] [lit "in"] sample_tree
           (lit "README")).
  - apply (visible_below [] _ (lit "s")
             [File (lit "README"); File (lit "b.PY")]).
    + right. right. now left.
    + reflexivity.
    + apply visible_here; [now left | reflexivity].
  - discriminate.
  - discriminate.
  - left. reflexivity.
Defined.

(** ** TreeRenderer *)

Lemma sorted_attach {A B} (leb : A -> A -> bool) (g : A -> B) (l : list A) :
  sorted (fun a b => leb (fst a) (fst b)) (map (fun c => (c, g c)) l)
  = map (fun c => (c, g c)) (sorted leb l).
Proof.
  induction l as [|x l IH]; [reflexivity|].
  cbn [map sorted]. rewrite IH. generalize (sorted leb l) as s. intros s.
  induction s as [|y s IHs]; [reflexivity|].
  cbn [map insert_sorted fst]. destruct (leb x y); [reflexivity|].
  cbn [map]. now rewrite IHs.
Qed.

Lemma get_tree_structure_loop excl p indent cs :
  get_tree_structure excl p indent cs
  = tree_loop excl p indent (length cs) 0
      (map (fun c => (c, subtree_of excl c)) (sorted key_leb cs)).
Proof.
  unfold get_tree_structure. rewrite sorted_attach, length_map.
  f_equal. clear. induction cs as [|x l IH]; [reflexivity|].
  cbn [sorted length]. rewrite <- IH. generalize (sorted key_leb l) as s.
  intros s. induction s as [|y s IHs]; [reflexivity|].
  cbn [insert_sorted]. destruct (key_leb x y); cbn [length]; [reflexivity|].
  now rewrite IHs.
Qed.

Section TreeRows.
Variable excl : list (list N).

Lemma row_ok_here cs p indent (e : entry) (conn : list N) :
  In e cs -> should_exclude_directory [entry_name e] excl = false ->
  is_connector conn ->
  row_ok excl cs p indent (p ++ [entry_name e], indent ++ conn).
Proof.
  intros Hin Hex Hc. exists [entry_name e], e, [], conn.
  cbn [fst snd]. repeat split; auto.
  now apply reach_here.
Qed.

Lemma row_ok_below cs p indent n cs' (unit : list N) row :
  In (Dir n cs') cs -> should_exclude_directory [n] excl = false ->
  is_unit unit ->
  row_ok excl cs' (p ++ [n]) (indent ++ unit) row ->
  row_ok excl cs p indent row.
Proof.
  intros Hin Hex Hu [rel [e [units [conn [H1 [H2 [H3 [H4 [H5 H6]]]]]]]]].
  exists (n :: rel), e, (unit :: units), conn. repeat split; auto.
  - rewrite H1, <- app_assoc. reflexivity.
  - now apply (reach_below excl cs n cs').
  - rewrite H3. unfold prefix_of. cbn [concat]. now rewrite <- !app_assoc.
  - cbn [length]. now rewrite H4.
Qed.

Lemma tree_loop_ok cs (entries : list entry) :
  Forall (rows_ok excl) cs ->
  (forall e, In e entries -> In e cs) ->
  forall p indent len i row,
    In row (tree_loop excl p indent len i
              (map (fun c => (c, subtree_of excl c)) entries)) ->
    row_ok excl cs p indent row.
Proof.
  intros Hcs. induction entries as [|entry rest IH];
    intros Hin p indent len i row H; [contradiction|].
  cbn [map tree_loop] in H. rewrite should_exclude_name in H.
  assert (Hrest : forall e, In e rest -> In e cs)
    by (intros e He; apply Hin; now right).
  destruct (should_exclude_directory [entry_name entry] excl) eqn:E.
  - eapply IH; eauto.
  - destruct H as [<-|H].
    + apply row_ok_here; [apply Hin; now left | exact E |].
      destruct (Nat.eqb i (len - 1)); [now left | now right].
    + apply in_app_iff in H as [H|H]; [|eapply IH; eauto].
      destruct entry as [n|n cs'|n]; cbn [is_dir] in H; try contradiction.
      rewrite Forall_forall in Hcs.
      apply (Hcs (Dir n cs') (Hin (Dir n cs') (or_introl eq_refl))) in H.
      cbn [children_of] in H.
      apply (row_ok_below cs p indent n cs'
               (if Nat.eqb i (len - 1) then indent_last else indent_mid));
        auto.
      * apply Hin. now left.
      * destruct (Nat.eqb i (len - 1)); [now left | now right].
Qed.

Lemma subtree_of_ok c : rows_ok excl c.
Proof.
  induction c as [n|n cs IH|n] using entry_ind; intros p indent row H;
    try contradiction.
  rewrite subtree_of_Dir, get_tree_structure_loop in H. cbn [children_of].
  apply (tree_loop_ok cs (sorted key_leb cs) IH) in H; [exact H|].
  intros e He. now apply In_sorted in He.
Qed.

Lemma get_tree_structure_ok cs p indent row :
  In row (get_tree_structure excl p indent cs) -> row_ok excl cs p indent row.
Proof.
  rewrite get_tree_structure_loop. apply tree_loop_ok.
  - apply Forall_forall. intros c _. apply subtree_of_ok.
  - intros e He. now apply In_sorted in He.
Qed.

Lemma tree_loop_complete (entries : list entry) (e : entry) :
  In e entries ->
  should_exclude_directory [entry_name e] excl = false ->
  forall p indent len i,
  exists conn unit,
    In (p ++ [entry_name e], indent ++ conn)
      (tree_loop excl p indent len i
         (map (fun c => (c, subtree_of excl c)) entries))
    /\ forall row,
         In row (subtree_of excl e (p ++ [entry_name e]) (indent ++ unit)) ->
         In row (tree_loop excl p indent len i
                   (map (fun c => (c, subtree_of excl c)) entries)).
Proof.
  intros Hin Hex. induction entries as [|entry rest IH];
    intros p indent len i; [contradiction|].
  cbn [map tree_loop]. rewrite should_exclude_name.
  destruct Hin as [->|Hin].
  - rewrite Hex.
    exists (if Nat.eqb i (len - 1) then connector_last else connector_mid).
    exists (if Nat.eqb i (len - 1) then indent_last else indent_mid).
    split; [now left|].
    intros row Hrow. right. apply in_app_iff. left.
    destruct e as [n|n cs'|n]; cbn [is_dir]; try contradiction. exact Hrow.
  - destruct (IH Hin p indent len (S i)) as [conn [unit [H1 H2]]].
    exists conn, unit.
    destruct (should_exclude_directory [entry_name entry] excl).
    + split; assumption.
    + split.
      * right. apply in_app_iff. now right.
      * intros row Hrow. right. apply in_app_iff. right. now apply H2.
Qed.

Lemma get_tree_structure_complete_if cs :
  Forall (rows_complete excl) cs ->
  forall p indent rel e,
    reachable excl cs rel e ->
    exists prefix, In (p ++ rel, prefix) (get_tree_structure excl p indent cs).
Proof.
  intros Hcs p indent rel e H. rewrite get_tree_structure_loop.
  destruct H as [cs e Hin Hex | cs n cs' rel e Hin Hex Hr].
  - destruct (tree_loop_complete (sorted key_leb cs) e
                (proj2 (In_sorted key_leb e cs) Hin) Hex p indent
                (length cs) 0) as [conn [unit [H _]]].
    eauto.
  - destruct (tree_loop_complete (sorted key_leb cs) (Dir n cs')
                (proj2 (In_sorted key_leb _ cs) Hin) Hex p indent
                (length cs) 0) as [conn [unit [_ H]]].
    rewrite Forall_forall in Hcs.
    destruct (Hcs _ Hin (p ++ [n]) (indent ++ unit) rel e Hr)
      as [prefix Hrow].
    exists prefix. apply H. cbn [entry_name].
    now rewrite <- app_assoc in Hrow.
Qed.

Lemma subtree_of_complete c : rows_complete excl c.
Proof.
  induction c as [n|n cs IH|n] using entry_ind; intros p indent rel e H;
    cbn [children_of] in H; try (now inversion H).
  rewrite subtree_of_Dir.
  exact (get_tree_structure_complete_if cs IH p indent rel e H).
Qed.

Lemma get_tree_structure_complete cs p indent rel e :
  reachable excl cs rel e ->
  exists prefix, In (p ++ rel, prefix) (get_tree_structure excl p indent cs).
Proof.
  apply get_tree_structure_complete_if.
  apply Forall_forall. intros c _. apply subtree_of_complete.
Qed.

End TreeRows.

(** X6: the tree lists a path exactly when it leads, from the directory
    that is rendered, to an entry through names none of which is
    excluded: nothing below an excluded name is listed and no other
    entry (directory, file or other) is left out. *)
Theorem tree_lists_reachable_entries (excl : list (list N))
    (p : list (list N)) (indent : list N) (cs : list entry)
    (q : list (list N)) :
  (exists prefix, In (q, prefix) (get_tree_structure excl p indent cs))
  <-> exists rel e, q = p ++ rel /\ reachable excl cs rel e.
Proof.
  split.
  - intros [prefix H]. apply get_tree_structure_ok in H.
    destruct H as [rel [e [_ [_ [H1 [H2 _]]]]]]. eauto.
  - intros [rel [e [-> H]]].
    exact (get_tree_structure_complete excl cs p indent rel e H).
Qed.

(** X7: the prefix of a row is the indent handed to the renderer, then
    one unit of four characters (['│   '] or four spaces) for every
    directory between the rendered directory and the entry, then one of
    the two connectors; it is therefore four characters long per level
    of nesting. *)
Theorem tree_prefix_shape (excl : list (list N)) (p : list (list N))
    (indent : list N) (cs : list entry) (q : list (list N)) (prefix : list N) :
  In (q, prefix) (get_tree_structure excl p indent cs) ->
  exists rel units conn,
    q = p ++ rel
    /\ prefix = indent ++ concat units ++ conn
    /\ S (length units) = length rel
    /\ Forall (fun u => u = indent_last \/ u = indent_mid) units
    /\ (conn = connector_last \/ conn = connector_mid)
    /\ length prefix = (length indent + 4 * length rel)%nat.
Proof.
  intros H. apply get_tree_structure_ok in H.
  destruct H as [rel [e [units [conn [H1 [_ [H3 [H4 [H5 H6]]]]]]]]].
  cbn [fst snd] in H1, H3. exists rel, units, conn.
  repeat split; auto.
  rewrite H3. unfold prefix_of. rewrite !length_app, <- H4.
  assert (Hu : length (concat units) = (4 * length units)%nat).
  { clear - H5. induction H5 as [|u units Hu _ IH]; [reflexivity|].
    cbn [concat length]. rewrite length_app, IH.
    destruct Hu as [->| ->]; cbn; lia. }
  rewrite Hu. destruct H6 as [->| ->]; cbn; lia.
Qed.

Lemma tree_prefix_shape_witness :
  exists rel units conn,
    [lit "in"; lit "lib"; lit "util.py"] = [lit "in"] ++ rel
    /\ indent_mid ++ connector_last = [] ++ concat units ++ conn
    /\ S (length units) = length rel
    /\ Forall (fun u => u = indent_last \/ u = indent_mid) units
    /\ (conn = connector_last \/ conn = connector_mid)
    /\ length (indent_mid ++ connector_last)
       = (length (@nil N) + 4 * length rel)%nat.
Proof.
  apply (tree_prefix_shape [] [lit "in"] []
           [Dir (lit "lib") [File (lit "util.py")];
            Dir (lit "node_modules") []]).
  vm_compute. right. now left.
Defined.

Lemma length_insert_sorted {A} (leb : A -> A -> bool) (x : A) (l : list A) :
  length (insert_sorted leb x l) = S (length l).
Proof.
  induction l as [|y l IH]; [reflexivity|].
  cbn [insert_sorted]. destruct (leb x y); cbn [length]; [reflexivity|].
  now rewrite IH.
Qed.

Lemma length_sorted {A} (leb : A -> A -> bool) (l : list A) :
  length (sorted leb l) = length l.
Proof.
  induction l as [|x l IH]; [reflexivity|].
  cbn [sorted]. now rewrite length_insert_sorted, IH.
Qed.

Lemma filter_none {A} (f : A -> bool) (l : list A) :
  (forall x, In x l -> f x = false) -> filter f l = [].
Proof.
  induction l as [|x l IH]; intros H; [reflexivity|].
  cbn [filter]. rewrite (H x (or_introl eq_refl)).
  apply IH. intros y Hy. apply H. now right.
Qed.

Lemma tree_loop_level excl p indent len (entries : list entry) : forall i,
  at_level p
    (tree_loop excl p indent len i
       (map (fun c => (c, subtree_of excl c)) entries))
  = flat_map
      (fun '(i, e) =>
         if should_exclude_directory (p ++ [entry_name e]) excl then []
         else [(p ++ [entry_name e],
                indent ++ (if Nat.eqb i (len - 1)
                           then connector_last else connector_mid))])
      (combine (seq i (length entries)) entries).
Proof.
  induction entries as [|e rest IH]; intros i; [reflexivity|].
  cbn [map tree_loop length seq combine flat_map].
  destruct (should_exclude_directory (p ++ [entry_name e]) excl);
    [apply IH|].
  unfold at_level in *. cbn [filter fst app].
  rewrite length_app, Nat.add_comm. cbn [length Nat.add].
  rewrite Nat.eqb_refl. f_equal. rewrite filter_app, IH.
  rewrite filter_none; [reflexivity|].
  intros row Hrow. apply Nat.eqb_neq.
  destruct (is_dir e); [|contradiction].
  apply subtree_of_ok in Hrow.
  destruct Hrow as [rel [e' [units [conn [H1 [_ [_ [H4 _]]]]]]]].
  rewrite H1, !length_app, <- H4. cbn [length]. lia.
Qed.

(** X8: among the rows of a tree, those of the entries of the rendered
    directory itself are, in sort order, one row for every entry whose
    name is not excluded, with ['└── '] for the entry at the last index
    of the sorted list as it is before exclusion and ['├── '] for every
    other.  (This holds at every level, [get_tree_structure] being
    called on each directory in turn.) *)
Theorem tree_level_rows (excl : list (list N)) (p : list (list N))
    (indent : list N) (cs : list entry) :
  at_level p (get_tree_structure excl p indent cs)
  = level_rows excl p indent (sorted key_leb cs).
Proof.
  rewrite get_tree_structure_loop, tree_loop_level.
  unfold level_rows. now rewrite length_sorted.
Qed.

(** Order of strings. *)

Lemma str_leb_refl a : str_leb a a = true.
Proof.
  induction a as [|x a IH]; [reflexivity|].
  cbn [str_leb]. now rewrite N.ltb_irrefl.
Qed.

Lemma str_leb_total a : forall b, str_leb a b = true \/ str_leb b a = true.
Proof.
  induction a as [|x a IH]; intros [|y b]; cbn [str_leb]; auto.
  destruct (N.ltb_spec x y), (N.ltb_spec y x); auto; try lia.
Qed.

Lemma str_leb_trans a : forall b c,
  str_leb a b = true -> str_leb b c = true -> str_leb a c = true.
Proof.
  induction a as [|x a IH]; intros [|y b] [|z c]; cbn [str_leb];
    try congruence.
  destruct (N.ltb_spec x y), (N.ltb_spec y x), (N.ltb_spec y z),
    (N.ltb_spec z y), (N.ltb_spec x z), (N.ltb_spec z x);
    try congruence; try lia.
  apply IH.
Qed.

Lemma str_leb_antisym a : forall b,
  str_leb a b = true -> str_leb b a = true -> a = b.
Proof.
  induction a as [|x a IH]; intros [|y b]; cbn [str_leb];
    try congruence.
  destruct (N.ltb_spec x y), (N.ltb_spec y x); try congruence; try lia.
  intros H1 H2. f_equal; [lia | now apply IH].
Qed.

Lemma key_leb_spec a b :
  key_leb a b = true
  <-> (is_dir a = true /\ is_dir b = false)
      \/ (is_dir a = is_dir b
          /\ str_leb (entry_name a) (entry_name b) = true).
Proof.
  unfold key_leb. destruct (is_dir a), (is_dir b); cbn; intuition congruence.
Qed.

Lemma key_leb_total a b : key_leb a b = true \/ key_leb b a = true.
Proof.
  rewrite !key_leb_spec.
  destruct (str_leb_total (entry_name a) (entry_name b));
    destruct (is_dir a), (is_dir b); auto.
Qed.

Lemma key_leb_trans a b c :
  key_leb a b = true -> key_leb b c = true -> key_leb a c = true.
Proof.
  rewrite !key_leb_spec.
  intros [[H1 H2]|[H1 H2]] [[H3 H4]|[H3 H4]]; try congruence.
  - left. split; congruence.
  - left. split; congruence.
  - right. split; [congruence|]. eapply str_leb_trans; eauto.
Qed.

Section SortFacts.
Context {A : Type}.
Variable leb : A -> A -> bool.
Hypothesis leb_total : forall a b, leb a b = true \/ leb b a = true.
Hypothesis leb_trans :
  forall a b c, leb a b = true -> leb b c = true -> leb a c = true.

Lemma insert_sorted_perm x l : Permutation (insert_sorted leb x l) (x :: l).
Proof.
  induction l as [|y l IH]; [apply Permutation_refl|].
  cbn [insert_sorted]. destruct (leb x y); [apply Permutation_refl|].
  eapply Permutation_trans; [apply perm_skip, IH | apply perm_swap].
Qed.

Lemma sorted_perm l : Permutation (sorted leb l) l.
Proof.
  induction l as [|x l IH]; [apply Permutation_refl|].
  cbn [sorted].
  eapply Permutation_trans; [apply insert_sorted_perm | now apply perm_skip].
Qed.

Lemma insert_sorted_sorted x l :
  StronglySorted (fun a b => leb a b = true) l ->
  StronglySorted (fun a b => leb a b = true) (insert_sorted leb x l).
Proof.
  induction 1 as [|y l Hs IH Hall]; cbn [insert_sorted].
  - repeat constructor.
  - destruct (leb x y) eqn:E.
    + constructor; [now constructor|].
      constructor; [exact E|].
      rewrite Forall_forall in *. intros z Hz. eauto.
    + constructor; [exact IH|].
      rewrite Forall_forall in *. intros z Hz.
      apply In_insert_sorted in Hz as [->|Hz]; [|auto].
      destruct (leb_total x y); congruence.
Qed.

Lemma sorted_sorted l : StronglySorted (fun a b => leb a b = true) (sorted leb l).
Proof.
  induction l as [|x l IH]; [constructor|].
  cbn [sorted]. now apply insert_sorted_sorted.
Qed.

(** Equal keys keep the order they had. *)
Lemma insert_sorted_first x l :
  Forall (fun y => leb x y = true) l -> insert_sorted leb x l = x :: l.
Proof.
  intros H. destruct l as [|y l]; [reflexivity|].
  cbn [insert_sorted]. inversion H; subst. now rewrite H2.
Qed.

End SortFacts.

Lemma strongly_sorted_app_r {A} (R : A -> A -> Prop) (l1 l2 : list A) :
  StronglySorted R (l1 ++ l2) -> StronglySorted R l2.
Proof.
  induction l1 as [|x l1 IH]; [auto|].
  cbn [app]. intros H. inversion H; subst. auto.
Qed.

(** X9: the order in which a directory is listed is a rearrangement of
    what the system returns, without loss or repetition, in which every
    entry comes before all those that follow it in the order of the
    keys: a directory before anything that is not one, and within the
    two groups names ascending in the order of their code points. *)
Theorem entries_sorted_dirs_first (cs : list entry) :
  Permutation (sorted key_leb cs) cs
  /\ StronglySorted (fun a b => key_leb a b = true) (sorted key_leb cs)
  /\ (forall a b,
        key_leb a b = true
        <-> (is_dir a = true /\ is_dir b = false)
            \/ (is_dir a = is_dir b
                /\ str_leb (entry_name a) (entry_name b) = true))
  /\ (forall before a between b after,
        sorted key_leb cs = before ++ a :: between ++ b :: after ->
        is_dir b = true -> is_dir a = true)
  /\ (forall x y, str_leb x y = true -> str_leb y x = true -> x = y)
  /\ (forall x y, str_leb x y = true \/ str_leb y x = true)
  /\ (forall (x y : N) (s t : list N),
        str_leb (x :: s) (y :: t) = true
        <-> x < y \/ (x = y /\ str_leb s t = true))
  /\ (forall t, str_leb [] t = true)
  /\ (forall x s, str_leb (x :: s) [] = false).
Proof.
  assert (Hs := sorted_sorted key_leb key_leb_total key_leb_trans cs).
  split; [apply sorted_perm|]. split; [exact Hs|].
  split; [apply key_leb_spec|]. split; [|split; [|split; [|split; [|split]]]].
  - intros before a between b after E Hb. rewrite E in Hs.
    apply strongly_sorted_app_r in Hs.
    inversion Hs as [|? ? _ Hall]; subst.
    rewrite Forall_forall in Hall.
    assert (Hab : key_leb a b = true)
      by (apply Hall, in_or_app; right; now left).
    apply key_leb_spec in Hab as [[H _]|[H _]]; congruence.
  - intros x y. apply str_leb_antisym.
  - intros x y. apply str_leb_total.
  - intros x y s t. cbn [str_leb].
    destruct (N.ltb_spec x y), (N.ltb_spec y x); split;
      try intuition (congruence || lia).
  - reflexivity.
  - reflexivity.
Qed.

(** ** MarkdownRenderer and ConversionPipeline *)

(** X10: whatever reading and writing do, [generate_markdown_from_file]
    returns; it makes no directory, and it writes at most one file: the
    output path, with the fragment of the text read, and only when the
    input was read without error. *)
Theorem generate_markdown_from_file_isolated (w : world)
    (input output : list (list N)) (rel_path language : list N) :
  outcome (generate_markdown_from_file w input output rel_path language)
  = inr tt
  /\ (forall p c,
        In (WriteFile p c)
          (events (generate_markdown_from_file w input output rel_path
                     language)) ->
        p = output
        /\ exists contents,
             read_text w input = inr contents
             /\ c = render rel_path contents language)
  /\ (length (writes (events (generate_markdown_from_file w input output
                                rel_path language))) <= 1)%nat
  /\ (forall p,
        ~ In (Makedirs p)
            (events (generate_markdown_from_file w input output rel_path
                       language))).
Proof.
  unfold generate_markdown_from_file, open_read, open_write, log, emit,
    try_except, bind, ret, raise.
  destruct (read_text w input) as [[| |]|contents];
    try (cbn; repeat split; auto;
         intros; intuition discriminate).
  destruct (can_write w output); cbn.
  - repeat split; auto.
    + destruct H as [H|[H|[H|[]]]]; try discriminate. now inversion H.
    + destruct H as [H|[H|[H|[]]]]; try discriminate.
      inversion H; subst. eauto.
    + intros p H. intuition discriminate.
  - repeat split; auto; intros; intuition discriminate.
Qed.

Lemma bind_returns {A B} (m : M A) (f : A -> M B) (b : B) :
  outcome (bind m f) = inr b ->
  exists a,
    outcome m = inr a
    /\ events (bind m f) = events m ++ events (f a)
    /\ outcome (f a) = inr b.
Proof.
  destruct m as [evs [e|a]]; cbn; [discriminate|].
  destruct (f a) as [evs' r] eqn:E. cbn. intros ->.
  exists a. rewrite E. auto.
Qed.

(** ** The run on the disk *)

Lemma walk_entry_io_all (listable : list (list N) -> bool) (c : entry) :
  (forall p, listable p = true) ->
  forall root, walk_entry_io listable root c = walk_entry root c.
Proof.
  intros Hall.
  induction c as [n|n cs IH|n] using entry_ind; intros root;
    try reflexivity.
  cbn [walk_entry_io walk_entry]. rewrite Hall. f_equal.
  induction IH as [|c cs Hc _ IHcs]; [reflexivity|].
  cbn [flat_map]. now rewrite Hc, IHcs.
Qed.

Lemma os_walk_io_all (listable : list (list N) -> bool)
    (input_dir : list (list N)) (top : list entry) :
  (forall p, listable p = true) ->
  os_walk_io listable input_dir top = os_walk input_dir top.
Proof.
  intros Hall. unfold os_walk_io, os_walk. rewrite Hall. f_equal.
  apply flat_map_ext. intros c. now apply walk_entry_io_all.
Qed.

Lemma entry_listable_all (listable : list (list N) -> bool)
    (excl : list (list N)) (c : entry) :
  (forall p, listable p = true) ->
  forall p, entry_listable listable excl p c = true.
Proof.
  intros Hall.
  induction c as [n|n cs IH|n] using entry_ind; intros p;
    cbn [entry_listable]; destruct (should_exclude_directory p excl);
    try reflexivity.
  rewrite Hall. cbn [andb]. apply forallb_forall. intros c Hc.
  rewrite Forall_forall in IH. now apply IH.
Qed.

Lemma tree_listable_all (listable : list (list N) -> bool)
    (excl directory : list (list N)) (top : list entry) :
  (forall p, listable p = true) ->
  tree_listable listable excl directory top = true.
Proof.
  intros Hall. unfold tree_listable. rewrite Hall. cbn [andb].
  apply forallb_forall. intros c _. now apply entry_listable_all.
Qed.

(** When every directory can be listed and the tree finds the disk as
    the walk found it, the run on the disk is the run on one tree. *)
Lemma generate_markdown_from_directory_io_all (U : Unicode) (w : world)
    (listable : list (list N) -> bool)
    (input_dir output_dir extensions : list (list N)) (single_file : bool)
    (exclude_dirs : list (list N)) (top : list entry) :
  (forall p, listable p = true) ->
  generate_markdown_from_directory_io w listable input_dir output_dir
    extensions single_file exclude_dirs top top
  = generate_markdown_from_directory w input_dir output_dir extensions
      single_file exclude_dirs top.
Proof.
  intros Hall.
  unfold generate_markdown_from_directory_io,
    generate_markdown_from_directory, generate_tree_output_io.
  now rewrite os_walk_io_all, tree_listable_all.
Qed.

(** X11: a run that returns has written the tree last: every directory
    that the tree lists could be listed, and the two final events are
    the writing of [directory_tree.txt] in the output directory, with the
    tree of the input directory as it is listed then, after the
    documents were written, under the same exclusions, and the record of
    it. *)
Theorem run_ends_with_tree (U : Unicode) (w : world)
    (listable : list (list N) -> bool)
    (input_dir output_dir extensions : list (list N)) (single_file : bool)
    (exclude_dirs : list (list N)) (top final : list entry) :
  outcome (generate_markdown_from_directory_io w listable input_dir
             output_dir extensions single_file exclude_dirs top final)
  = inr tt ->
  tree_listable listable exclude_dirs input_dir final = true
  /\ exists evs,
       events (generate_markdown_from_directory_io w listable input_dir
                 output_dir extensions single_file exclude_dirs top final)
       = evs
         ++ [WriteFile (output_dir ++ [lit "directory_tree.txt"])
               (tree_text input_dir final exclude_dirs);
             Log INFO (output_dir ++ [lit "directory_tree.txt"])].
Proof.
  unfold generate_markdown_from_directory_io. intros H.
  apply bind_returns in H as [[] [_ [E1 H]]]. rewrite E1.
  apply bind_returns in H as [all [_ [E2 H]]]. rewrite E2.
  apply bind_returns in H as [[] [_ [E3 H]]]. rewrite E3.
  change (path_div output_dir (lit "directory_tree.txt"))
    with (output_dir ++ [lit "directory_tree.txt"]) in *.
  unfold generate_tree_output_io in *.
  destruct (tree_listable listable exclude_dirs input_dir final);
    [|discriminate H].
  split; [reflexivity|].
  unfold generate_tree_output, open_write, log, emit in *.
  destruct (can_write w (output_dir ++ [lit "directory_tree.txt"]));
    [|discriminate H].
  cbn [bind events fst app]. eexists. rewrite !app_assoc. reflexivity.
Qed.

Lemma run_ends_with_tree_witness :
  tree_listable (fun _ => true) [] [lit "in"]
    (File (lit "all_files.txt") :: sample_tree) = true
  /\ exists evs,
       events (@generate_markdown_from_directory_io py_unicode world_ok
                 (fun _ => true) [lit "in"] [lit "in"] [lit ".py"] true []
                 sample_tree (File (lit "all_files.txt") :: sample_tree))
       = evs
         ++ [WriteFile ([lit "in"] ++ [lit "directory_tree.txt"])
               (tree_text [lit "in"]
                  (File (lit "all_files.txt") :: sample_tree) []);
             Log INFO ([lit "in"] ++ [lit "directory_tree.txt"])].
Proof.
  apply (run_ends_with_tree py_unicode world_ok (fun _ => true) [lit "in"]
           [lit "in"] [lit ".py"] true [] sample_tree
           (File (lit "all_files.txt") :: sample_tree)).
  reflexivity.
Defined.

Lemma walk_single_steps (U : Unicode) (w : world)
    (input_dir output_dir extensions exclude_dirs : list (list N))
    (steps : list (list (list N) * list (list N) * list (list N))) :
  for_each steps
    (process_directory w input_dir output_dir extensions true exclude_dirs) []
  = (flat_map (walk_events w extensions exclude_dirs) steps,
     inr (flat_map
            (fun '(root, _, files) =>
               if should_exclude_directory root exclude_dirs then []
               else flat_map (fragment w input_dir extensions root) files)
            steps)).
Proof.
  rewrite (for_each_appends _ (walk_events w extensions exclude_dirs)
             (fun step acc =>
                acc ++ (let '(root, _, files) := step in
                        if should_exclude_directory root exclude_dirs then []
                        else flat_map (fragment w input_dir extensions root)
                               files))).
  - now rewrite fold_left_append.
  - intros b a _. apply process_directory_single.
Qed.

(** X12: in single-file mode no failure to read a file and no directory
    that the walk cannot list aborts the run: it returns exactly when
    the output directory can be made, [all_files.txt] can be written,
    every directory that the tree lists can be listed, and
    [directory_tree.txt] can be written; when the output directory
    cannot be made nothing has been read or written. *)
Theorem single_file_run_outcome (U : Unicode) (w : world)
    (listable : list (list N) -> bool)
    (input_dir output_dir extensions exclude_dirs : list (list N))
    (top final : list entry) :
  (outcome (generate_markdown_from_directory_io w listable input_dir
              output_dir extensions true exclude_dirs top final) = inr tt
   <-> can_mkdir w output_dir = true
       /\ can_write w (output_dir ++ [lit "all_files.txt"]) = true
       /\ tree_listable listable exclude_dirs input_dir final = true
       /\ can_write w (output_dir ++ [lit "directory_tree.txt"]) = true)
  /\ (can_mkdir w output_dir = false ->
      events (generate_markdown_from_directory_io w listable input_dir
                output_dir extensions true exclude_dirs top final) = []).
Proof.
  unfold generate_markdown_from_directory_io, generate_tree_output_io,
    makedirs.
  change (path_div output_dir (lit "all_files.txt"))
    with (output_dir ++ [lit "all_files.txt"]).
  change (path_div output_dir (lit "directory_tree.txt"))
    with (output_dir ++ [lit "directory_tree.txt"]).
  destruct (can_mkdir w output_dir).
  2: { split; [|reflexivity].
       split; [intros H; discriminate H | intros [H _]; discriminate H]. }
  split; [|discriminate].
  unfold emit. rewrite bind_value, walk_single_steps, bind_value.
  unfold generate_tree_output, open_write, log, emit.
  destruct (can_write w (output_dir ++ [lit "all_files.txt"]));
    destruct (tree_listable listable exclude_dirs input_dir final);
    destruct (can_write w (output_dir ++ [lit "directory_tree.txt"]));
    cbn; split;
    solve [ intros H; discriminate H
          | intros [_ [H1 [H2 H3]]]; discriminate
          | auto ].
Qed.

Lemma writes_app evs evs' : writes (evs ++ evs') = writes evs ++ writes evs'.
Proof. unfold writes. apply flat_map_app. Qed.

Lemma writes_flat_map {A} (f : A -> list event) (l : list A) :
  writes (flat_map f l) = flat_map (fun a => writes (f a)) l.
Proof.
  induction l as [|a l IH]; [reflexivity|].
  cbn [flat_map]. now rewrite writes_app, IH.
Qed.

Lemma fold_left_const {A B} (l : list A) (b : B) :
  fold_left (fun b _ => b) l b = b.
Proof. induction l; auto. Qed.

Section PerFileFacts.
Context {U : Unicode}.
Variable w : world.
Variables (input_dir output_dir extensions exclude_dirs : list (list N)).
Hypothesis mkdir_ok : forall p, can_mkdir w p = true.

Lemma process_file_per_file root acc file :
  process_file w input_dir output_dir extensions false root acc file
  = (file_events w input_dir output_dir extensions root file, inr acc).
Proof.
  unfold process_file, file_events, included, selected, output_path.
  destruct (mem file [lit ".DS_Store"; lit ".env"]); cbn [negb andb];
    [reflexivity|].
  destruct (mem (lower (snd (splitext file))) extensions
            || negb (truthy (lower (snd (splitext file))))
               && mem file extensions); [|reflexivity].
  cbn [negb]. unfold makedirs. rewrite mkdir_ok.
  destruct (generate_markdown_from_file_shape w (root ++ [file])
              (with_name
                 (path_div output_dir (relpath (root ++ [file]) input_dir))
                 (sanitise_filename (relpath (root ++ [file]) input_dir)
                  ++ lit ".txt"))
              (relpath (root ++ [file]) input_dir)
              (skipn 1 (lower (snd (splitext file)))))
    as [evs [E _]].
  unfold emit. rewrite bind_value, E. cbn. now rewrite app_nil_r.
Qed.

Lemma file_events_writes root file :
  writes (file_events w input_dir output_dir extensions root file)
  = file_writes w input_dir output_dir extensions root file.
Proof.
  unfold file_events, file_writes.
  destruct (included extensions file); [|reflexivity].
  unfold generate_markdown_from_file, open_read, open_write, log, emit,
    try_except, bind, ret, raise.
  destruct (read_text w (root ++ [file])) as [[| |]|contents];
    try reflexivity.
  now destruct (can_write w (output_path input_dir output_dir root file)).
Qed.

Lemma walk_per_file
    (steps : list (list (list N) * list (list N) * list (list N))) :
  for_each steps
    (process_directory w input_dir output_dir extensions false exclude_dirs) []
  = (flat_map
       (fun '(root, _, files) =>
          if should_exclude_directory root exclude_dirs then [Log DEBUG root]
          else flat_map
                 (file_events w input_dir output_dir extensions root) files)
       steps,
     inr []).
Proof.
  rewrite (for_each_appends _
             (fun '(root, _, files) =>
                if should_exclude_directory root exclude_dirs
                then [Log DEBUG root]
                else flat_map
                       (file_events w input_dir output_dir extensions root)
                       files)
             (fun _ acc => acc)).
  - now rewrite fold_left_const.
  - intros acc [[root dirs] files] _. unfold process_directory.
    destruct (should_exclude_directory root exclude_dirs); [reflexivity|].
    rewrite (for_each_appends _
               (file_events w input_dir output_dir extensions root)
               (fun _ acc => acc)).
    + now rewrite fold_left_const.
    + intros b a _. apply process_file_per_file.
Qed.

Lemma per_file_run (listable : list (list N) -> bool)
    (top final : list entry) :
  generate_markdown_from_directory_io w listable input_dir output_dir
    extensions false exclude_dirs top final
  = (Makedirs output_dir
     :: flat_map
          (fun '(root, _, files) =>
             if should_exclude_directory root exclude_dirs
             then [Log DEBUG root]
             else flat_map
                    (file_events w input_dir output_dir extensions root)
                    files)
          (os_walk_io listable input_dir top)
     ++ events (generate_tree_output_io w listable input_dir final
                  (output_dir ++ [lit "directory_tree.txt"]) exclude_dirs),
     outcome (generate_tree_output_io w listable input_dir final
                (output_dir ++ [lit "directory_tree.txt"]) exclude_dirs)).
Proof.
  unfold generate_markdown_from_directory_io, makedirs. rewrite mkdir_ok.
  unfold emit. rewrite bind_value, walk_per_file, bind_value.
  change (path_div output_dir (lit "directory_tree.txt"))
    with (output_dir ++ [lit "directory_tree.txt"]).
  destruct (generate_tree_output_io w listable input_dir final
              (output_dir ++ [lit "directory_tree.txt"]) exclude_dirs)
    as [tevs tr].
  reflexivity.
Qed.

End PerFileFacts.

(** X13: in per-file mode, when the directories can be made, the write
    operations are, in walk order, one for every included file of a
    directory that the walk could list and that is not excluded, when
    the file is read without error and its document can be opened (the
    fragment, at the output path of the file), and then the tree.  Two
    files whose documents have the same path are written one over the
    other, and both operations are counted.  A file that cannot be read
    or written is passed over, and the run returns exactly when every
    directory that the tree lists can be listed and the tree can be
    written. *)
Theorem per_file_run_writes (U : Unicode) (w : world)
    (listable : list (list N) -> bool)
    (input_dir output_dir extensions exclude_dirs : list (list N))
    (top final : list entry) :
  (forall p, can_mkdir w p = true) ->
  writes (events (generate_markdown_from_directory_io w listable input_dir
                    output_dir extensions false exclude_dirs top final))
  = walk_writes w input_dir output_dir extensions exclude_dirs
      (os_walk_io listable input_dir top)
    ++ (if tree_listable listable exclude_dirs input_dir final
           && can_write w (output_dir ++ [lit "directory_tree.txt"])
        then [(output_dir ++ [lit "directory_tree.txt"],
               tree_text input_dir final exclude_dirs)]
        else [])
  /\ (outcome (generate_markdown_from_directory_io w listable input_dir
                 output_dir extensions false exclude_dirs top final)
      = inr tt
      <-> tree_listable listable exclude_dirs input_dir final = true
          /\ can_write w (output_dir ++ [lit "directory_tree.txt"]) = true).
Proof.
  intros Hmk. rewrite (per_file_run w _ _ _ _ Hmk).
  cbn [events outcome fst snd]. split.
  - change (Makedirs output_dir :: ?l) with ([Makedirs output_dir] ++ l).
    rewrite !writes_app, writes_flat_map. cbn [writes flat_map app].
    f_equal.
    + unfold walk_writes. apply flat_map_ext. intros [[root dirs] files].
      destruct (should_exclude_directory root exclude_dirs); [reflexivity|].
      rewrite writes_flat_map. apply flat_map_ext. intros file.
      apply file_events_writes.
    + unfold generate_tree_output_io, generate_tree_output, open_write, log,
        emit.
      destruct (tree_listable listable exclude_dirs input_dir final);
        [|reflexivity].
      now destruct (can_write w (output_dir ++ [lit "directory_tree.txt"])).
  - unfold generate_tree_output_io, generate_tree_output, open_write, log,
      emit.
    destruct (tree_listable listable exclude_dirs input_dir final);
      [|split; [intros H; discriminate H | intros [H _]; discriminate H]].
    destruct (can_write w (output_dir ++ [lit "directory_tree.txt"])); cbn;
      split; auto; [intros H; discriminate H | intros [_ H]; discriminate H].
Qed.

Lemma per_file_run_writes_witness :
  writes (events (@generate_markdown_from_directory_io py_unicode world_ok
                    s_unlistable [lit "in"] [lit "out"] [lit ".py"] false []
                    sample_tree sample_tree))
  = [([lit "out"; lit "a_py.txt"], render (lit "a.py") print_hi (lit "py"))].
Proof.
  etransitivity.
  - apply (proj1 (per_file_run_writes py_unicode world_ok s_unlistable
                    [lit "in"] [lit "out"] [lit ".py"] [] sample_tree
                    sample_tree (fun _ => eq_refl))).
  - reflexivity.
Defined.

(** Paths of documents. *)

Lemma commonprefix_app (start q : list (list N)) :
  commonprefix start (start ++ q) = start.
Proof.
  induction start as [|x start IH]; [now destruct q|].
  cbn [app commonprefix]. now rewrite str_eqb_refl, IH.
Qed.

Lemma relpath_below (start q : list (list N)) :
  q <> [] -> relpath (start ++ q) start = join [c_slash] q.
Proof.
  intros Hq. unfold relpath.
  rewrite commonprefix_app, Nat.sub_diag, skipn_app, Nat.sub_diag, skipn_all.
  cbn [repeat app skipn]. destruct q; [contradiction | reflexivity].
Qed.

Lemma split_slash_name (n : list N) : forall cur s,
  existsb (N.eqb c_slash) n = false ->
  split_slash cur (n ++ s) = split_slash (rev n ++ cur) s.
Proof.
  induction n as [|c n IH]; intros cur s H; [reflexivity|].
  cbn [existsb] in H. apply orb_false_iff in H as [Hc Hn].
  cbn [app split_slash]. rewrite N.eqb_sym, Hc.
  rewrite (IH _ _ Hn). cbn [rev]. now rewrite <- app_assoc.
Qed.

Lemma split_slash_join (q : list (list N)) :
  q <> [] ->
  forallb (fun n => negb (existsb (N.eqb c_slash) n)) q = true ->
  split_slash [] (join [c_slash] q) = q.
Proof.
  induction q as [|n q IH]; intros Hq H; [contradiction|].
  cbn [forallb] in H. apply andb_true_iff in H as [Hn Hrest].
  apply negb_true_iff in Hn.
  destruct q as [|m q].
  - cbn [join]. rewrite <- (app_nil_r n) at 1.
    rewrite (split_slash_name n [] [] Hn). cbn [split_slash].
    now rewrite app_nil_r, rev_involutive.
  - change (join [c_slash] (n :: m :: q))
      with (n ++ [c_slash] ++ join [c_slash] (m :: q)).
    rewrite (split_slash_name n [] _ Hn). cbn [app split_slash].
    rewrite N.eqb_refl, app_nil_r, rev_involutive. f_equal.
    apply IH; [discriminate | exact Hrest].
Qed.

Lemma path_of_str_join (q : list (list N)) :
  q <> [] -> forallb plain q = true -> path_of_str (join [c_slash] q) = q.
Proof.
  intros Hq H. unfold path_of_str.
  rewrite split_slash_join; [|exact Hq|].
  - clear Hq. induction q as [|n q IH]; [reflexivity|].
    cbn [forallb filter] in *. apply andb_true_iff in H as [Hn Hrest].
    unfold plain in Hn. apply andb_true_iff in Hn as [Hn H3].
    apply andb_true_iff in Hn as [H1 _].
    rewrite H1, H3. cbn [andb]. now rewrite IH.
  - rewrite forallb_forall in *. intros n Hn. specialize (H n Hn).
    unfold plain in H. apply andb_true_iff in H as [H _].
    now apply andb_true_iff in H as [_ H].
Qed.

Lemma walk_entry_roots (P : list N -> bool) (c : entry) :
  forall root step,
    (fix all (e : entry) : bool :=
       P (entry_name e)
       && match e with
          | Dir _ cs => forallb all cs
          | _ => true
          end) c = true ->
    In step (walk_entry root c) ->
    exists rel,
      fst (fst step) = root ++ rel
      /\ forallb P rel = true /\ forallb P (snd step) = true.
Proof.
  induction c as [n|n cs IH|n] using entry_ind; intros root step Hp H;
    try contradiction.
  cbn [walk_entry] in H. apply andb_true_iff in Hp as [_ Hcs].
  rewrite forallb_forall in Hcs. rewrite Forall_forall in IH.
  destruct H as [<-|H].
  - exists []. cbn [fst snd forallb]. rewrite app_nil_r.
    repeat split; auto.
    unfold filenames. apply forallb_forall. intros x Hx.
    apply in_map_iff in Hx as [c [<- Hc]]. apply filter_In in Hc as [Hc _].
    specialize (Hcs c Hc). destruct c; now apply andb_true_iff in Hcs as [H _].
  - apply in_flat_map in H as [c [Hc H]].
    destruct (IH c Hc (root ++ [entry_name c]) step (Hcs c Hc) H)
      as [rel [H1 [H2 H3]]].
    exists (entry_name c :: rel). rewrite H1, <- app_assoc.
    repeat split; auto. cbn [forallb]. rewrite H2, andb_true_r.
    specialize (Hcs c Hc). destruct c; now apply andb_true_iff in Hcs as [H' _].
Qed.

Lemma os_walk_roots (input_dir : list (list N)) (top : list entry) step :
  forallb plain_entry top = true ->
  In step (os_walk input_dir top) ->
  exists rel,
    fst (fst step) = input_dir ++ rel
    /\ forallb plain rel = true /\ forallb plain (snd step) = true.
Proof.
  intros Hp H. unfold os_walk in H. rewrite forallb_forall in Hp.
  destruct H as [<-|H].
  - exists []. cbn [fst snd forallb]. rewrite app_nil_r.
    repeat split; auto.
    unfold filenames. apply forallb_forall. intros x Hx.
    apply in_map_iff in Hx as [c [<- Hc]]. apply filter_In in Hc as [Hc _].
    specialize (Hp c Hc). destruct c; now apply andb_true_iff in Hp as [H _].
  - apply in_flat_map in H as [c [Hc H]].
    destruct (walk_entry_roots plain c (input_dir ++ [entry_name c]) step
                (Hp c Hc) H) as [rel [H1 [H2 H3]]].
    exists (entry_name c :: rel). rewrite H1, <- app_assoc.
    repeat split; auto. cbn [forallb]. rewrite H2, andb_true_r.
    specialize (Hp c Hc). destruct c; now apply andb_true_iff in Hp as [H' _].
Qed.

(** X14: the documents mirror the input tree.  For a tree whose names
    are plain (not empty, without [/], not [.]), a file [file] that the
    walk finds in the directory [rel] below the input directory has the
    relative path [rel/file], and its document is
    [sanitise_filename(rel/file) + ".txt"] in the directory [rel] below
    the output directory. *)
Theorem output_mirrors_input (U : Unicode)
    (input_dir output_dir : list (list N)) (top : list entry)
    (root dirs files : list (list N)) (file : list N) :
  forallb plain_entry top = true ->
  In (root, dirs, files) (os_walk input_dir top) ->
  In file files ->
  exists rel,
    root = input_dir ++ rel
    /\ relpath (root ++ [file]) input_dir = join [c_slash] (rel ++ [file])
    /\ output_path input_dir output_dir root file
       = output_dir ++ rel
         ++ [sanitise_filename (join [c_slash] (rel ++ [file])) ++ lit ".txt"]
    /\ parent (output_path input_dir output_dir root file)
       = output_dir ++ rel.
Proof.
  intros Hp Hs Hf.
  destruct (os_walk_roots input_dir top _ Hp Hs) as [rel [H1 [H2 H3]]].
  cbn [fst snd] in H1, H3. exists rel. split; [exact H1|].
  assert (Hrel : relpath (root ++ [file]) input_dir
                 = join [c_slash] (rel ++ [file])).
  { rewrite H1, <- app_assoc. apply relpath_below. now destruct rel. }
  assert (Hout : output_path input_dir output_dir root file
                 = output_dir ++ rel
                   ++ [sanitise_filename (join [c_slash] (rel ++ [file]))
                       ++ lit ".txt"]).
  { unfold output_path. rewrite Hrel. unfold path_div, with_name.
    rewrite path_of_str_join.
    - rewrite !app_assoc, removelast_last. reflexivity.
    - now destruct rel.
    - rewrite forallb_app, H2. cbn [forallb andb].
      rewrite forallb_forall in H3. now rewrite (H3 file Hf). }
  split; [exact Hrel|]. split; [exact Hout|].
  unfold parent. rewrite Hout, !app_assoc, removelast_last. reflexivity.
Qed.

Lemma output_mirrors_input_witness :
  exists rel,
    [lit "in"; lit "s"] = [lit "in"] ++ rel
    /\ relpath ([lit "in"; lit "s"] ++ [lit "b.PY"]) [lit "in"]
       = join [c_slash] (rel ++ [lit "b.PY"])
    /\ @output_path py_unicode [lit "in"] [lit "out"] [lit "in"; lit "s"]
         (lit "b.PY")
       = [lit "out"] ++ rel
         ++ [@sanitise_filename py_unicode
               (join [c_slash] (rel ++ [lit "b.PY"])) ++ lit ".txt"]
    /\ parent (@output_path py_unicode [lit "in"] [lit "out"]
                 [lit "in"; lit "s"] (lit "b.PY"))
       = [lit "out"] ++ rel.
Proof.
  apply (output_mirrors_input py_unicode [lit "in"] [lit "out"] sample_tree
           [lit "in"; lit "s"] [] [lit "README"; lit "b.PY"] (lit "b.PY")).
  - reflexivity.
  - right. left. reflexivity.
  - right. left. reflexivity.
Defined.

(** ** Selection of the extensions *)

Lemma before_space_app (k rest : list N) :
  before_space (k ++ 32 :: rest) = before_space k.
Proof.
  induction k as [|c k IH]; [reflexivity|].
  cbn [app before_space]. destruct (c =? 32); [reflexivity|]. now rewrite IH.
Qed.

Lemma before_space_choice (k : list N) (n : nat) :
  before_space (choice_of k n) = before_space k.
Proof. unfold choice_of. apply before_space_app. Qed.

Lemma before_space_fixed (k : list N) :
  ~ In 32 k -> before_space k = k.
Proof.
  induction k as [|c k IH]; [reflexivity|].
  cbn [before_space In]. intros H.
  destruct (N.eqb_spec c 32) as [->|_]; [tauto|].
  rewrite IH; tauto.
Qed.

Lemma before_space_no_space (k : list N) : ~ In 32 (before_space k).
Proof.
  induction k as [|c k IH]; [auto|].
  cbn [before_space]. destruct (N.eqb_spec c 32); [auto|].
  intros [H|H]; auto.
Qed.

(** X15: what [select_extensions] returns when the user confirms a
    selection among the choices offered: for every ticked choice the
    catalogue key it was made from, cut at its first space.  With all
    choices ticked and no space in any key, the result is the list of
    the keys of the catalogue, in its order; a key that has a space is
    never returned whole. *)
Theorem select_extensions_returns_keys (U : Unicode)
    (ask : list (list N) -> option (list (list N)))
    (input_dir : list (list N)) (top : list entry) (excl : list (list N))
    (answers : list (list N)) :
  let catalogue := discover_extensions excl input_dir top in
  let choices := map (fun '(ext, count) => choice_of ext count) catalogue in
  catalogue <> [] ->
  ask choices = Some answers ->
  (forall a, In a answers -> In a choices) ->
  select_extensions ask input_dir top excl
  = ([], inr (map before_space answers))
  /\ (forall s, In s (map before_space answers) ->
        ~ In 32 s
        /\ exists k, In k (keys catalogue) /\ s = before_space k)
  /\ (answers = choices ->
      map before_space answers = map before_space (keys catalogue))
  /\ (answers = choices ->
      (forall k, In k (keys catalogue) -> ~ In 32 k) ->
      map before_space answers = keys catalogue).
Proof.
  intros catalogue choices Hne Hask Hsub.
  assert (Hall : map before_space choices = map before_space (keys catalogue)).
  { unfold choices, keys. rewrite !map_map. apply map_ext.
    intros [k n]. apply before_space_choice. }
  split; [|split; [|split]].
  - unfold select_extensions. fold catalogue.
    destruct catalogue as [|x l]; [contradiction|].
    cbn [truthy negb]. fold choices. now rewrite Hask.
  - intros s Hs. split.
    + apply in_map_iff in Hs as [a [<- _]]. apply before_space_no_space.
    + apply in_map_iff in Hs as [a [<- Ha]]. apply Hsub in Ha.
      unfold choices in Ha. apply in_map_iff in Ha as [[k n] [<- Hk]].
      exists k. split; [|apply before_space_choice].
      unfold keys. change k with (fst (k, n)). now apply in_map.
  - intros ->. exact Hall.
  - intros -> Hns. rewrite Hall.
    rewrite <- (map_id (keys catalogue)) at 2. apply map_ext_in.
    intros k Hk. apply before_space_fixed, Hns, Hk.
Qed.

Lemma select_extensions_returns_keys_witness :
  @select_extensions py_unicode (fun choices => Some choices) [lit "in"]
    sample_tree []
  = ([], inr [lit ".py"; lit ".env"; []]).
Proof.
  apply (proj1 (select_extensions_returns_keys py_unicode
                  (fun choices => Some choices) [lit "in"] sample_tree []
                  [lit ".py (2)"; lit ".env (1)"; lit " (1)"]
                  ltac:(discriminate) eq_refl (fun a H => H))).
Defined.



(** ** [main] *)







Lemma str_eqb_nil (s : list N) : str_eqb s [] = negb (truthy s).
Proof. now destruct s. Qed.

(** X18: with the input directory and [--extensions] on the command
    line, no prompt is consulted: [main] logs, runs the pipeline on the
    directory with the extensions lower-cased, the flag [--single-file]
    and the exclusions as given, into the output directory given or,
    when none is, into the directory of the same name as the input
    below the working directory, and logs the end. *)
Theorem main_with_arguments (U : Unicode) (w : world) (sys : system)
    (con : console) (args : arguments) (top : list entry) :
  arg_input_dir args <> [] ->
  arg_extensions args <> [] ->
  scandir sys (path_of_str (arg_input_dir args)) = Some top ->
  let input_dir := path_of_str (arg_input_dir args) in
  let output_dir :=
    match arg_output_dir args with
    | [] => getcwd sys ++ path_of_str (path_name input_dir)
    | _ :: _ => path_of_str (arg_output_dir args)
    end in
  main w sys con args
  = (log INFO input_dir ;;
     generate_markdown_from_directory w input_dir output_dir
       (map lower (arg_extensions args)) (arg_single_file args)
       (arg_exclude_dir args) top ;;
     log INFO output_dir).
Proof.
  intros Hi He Hs input_dir output_dir. unfold main.
  destruct (arg_input_dir args) as [|c i] eqn:Ei; [contradiction|].
  cbn [truthy negb]. fold input_dir. rewrite str_eqb_nil.
  destruct (arg_output_dir args) as [|c' o] eqn:Eo; cbn [truthy negb];
    unfold input_dir in *; rewrite Hs;
    destruct (arg_extensions args) as [|x l] eqn:Ee; try contradiction;
    cbn [truthy map negb]; reflexivity.
Qed.

Lemma main_with_arguments_witness :
  @main py_unicode world_ok
    {| getcwd := [lit "home"]; scandir := fun _ => Some sample_tree |}
    {| ask_paths := None; ask_extensions := fun _ => None |}
    {| arg_input_dir := lit "work/in"; arg_output_dir := [];
       arg_extensions := [lit ".PY"]; arg_exclude_dir := [];
       arg_single_file := true |}
  = (log INFO [lit "work"; lit "in"] ;;
     @generate_markdown_from_directory py_unicode world_ok
       [lit "work"; lit "in"] [lit "home"; lit "in"] [lit ".py"] true []
       sample_tree ;;
     log INFO [lit "home"; lit "in"]).
Proof.
  apply (main_with_arguments py_unicode world_ok
           {| getcwd := [lit "home"]; scandir := fun _ => Some sample_tree |}
           {| ask_paths := None; ask_extensions := fun _ => None |}
           {| arg_input_dir := lit "work/in"; arg_output_dir := [];
              arg_extensions := [lit ".PY"]; arg_exclude_dir := [];
              arg_single_file := true |}
           sample_tree).
  - discriminate.
  - discriminate.
  - reflexivity.
Defined.

(** X19: when the input directory is not given on the command line,
    the output directory and the mode are those answered at the prompt:
    the argument [output_dir] and the flag [--single-file] of the
    command line change nothing. *)
Theorem main_prompted_ignores_flags (U : Unicode) (w : world) (sys : system)
    (con : console) (args : arguments) (output_dir : list N)
    (single_file : bool) :
  arg_input_dir args = [] ->
  main w sys con
    {| arg_input_dir := arg_input_dir args;
       arg_output_dir := output_dir;
       arg_extensions := arg_extensions args;
       arg_exclude_dir := arg_exclude_dir args;
       arg_single_file := single_file |}
  = main w sys con args.
Proof.
  intros H. unfold main. cbn [arg_input_dir arg_output_dir arg_extensions
                              arg_exclude_dir arg_single_file].
  rewrite H. reflexivity.
Qed.

Lemma main_prompted_ignores_flags_witness :
  @main py_unicode world_ok
    {| getcwd := [lit "home"]; scandir := fun _ => Some sample_tree |}
    {| ask_paths := Some (lit "in", [], false);
       ask_extensions := fun choices => Some choices |}
    {| arg_input_dir := []; arg_output_dir := lit "elsewhere";
       arg_extensions := []; arg_exclude_dir := [];
       arg_single_file := true |}
  = @main py_unicode world_ok
      {| getcwd := [lit "home"]; scandir := fun _ => Some sample_tree |}
      {| ask_paths := Some (lit "in", [], false);
         ask_extensions := fun choices => Some choices |}
      {| arg_input_dir := []; arg_output_dir := [];
         arg_extensions := []; arg_exclude_dir := [];
         arg_single_file := false |}.
Proof.
  apply (main_prompted_ignores_flags py_unicode world_ok
           {| getcwd := [lit "home"]; scandir := fun _ => Some sample_tree |}
           {| ask_paths := Some (lit "in", [], false);
              ask_extensions := fun choices => Some choices |}
           {| arg_input_dir := []; arg_output_dir := [];
              arg_extensions := []; arg_exclude_dir := [];
              arg_single_file := false |}
           (lit "elsewhere") true).
  reflexivity.
Defined.

(** ** The totals of the tree *)

Lemma list_sum_perm (l l' : list nat) :
  Permutation l l' -> list_sum l = list_sum l'.
Proof.
  induction 1; cbn [list_sum fold_right] in *; unfold list_sum in *; lia.
Qed.

Lemma list_sum_cons (x : nat) (l : list nat) :
  list_sum (x :: l) = (x + list_sum l)%nat.
Proof. reflexivity. Qed.

Lemma find_distinct (cs : list entry) (e : entry) :
  distinct (map entry_name cs) = true -> In e cs ->
  find (fun c => str_eqb (entry_name c) (entry_name e)) cs = Some e.
Proof.
  induction cs as [|c cs IH]; intros Hd Hin; [contradiction|].
  cbn [map distinct] in Hd. apply andb_true_iff in Hd as [Hc Hd].
  apply negb_true_iff in Hc. cbn [find].
  destruct Hin as [->|Hin]; [now rewrite str_eqb_refl|].
  destruct (str_eqb (entry_name c) (entry_name e)) eqn:E; [|now apply IH].
  apply str_eqb_eq in E. exfalso.
  assert (Hm : mem (entry_name c) (map entry_name cs) = true)
    by (apply mem_In; rewrite E; now apply in_map).
  congruence.
Qed.

Lemma lookup_single (cs : list entry) (e : entry) :
  distinct (map entry_name cs) = true -> In e cs ->
  lookup cs [entry_name e] = Some e.
Proof.
  intros Hd He. cbn [lookup]. now rewrite (find_distinct cs e Hd He).
Qed.

Lemma lookup_below (cs : list entry) n cs' (rel : list (list N)) :
  distinct (map entry_name cs) = true -> In (Dir n cs') cs -> rel <> [] ->
  lookup cs (n :: rel) = lookup cs' rel.
Proof.
  intros Hd He Hrel. cbn [lookup].
  pose proof (find_distinct cs (Dir n cs') Hd He) as E.
  cbn [entry_name] in E. rewrite E.
  destruct rel; [contradiction | reflexivity].
Qed.

Section CountFacts.
Variable kind : entry -> bool.
Variable excl : list (list N).

Lemma count_rows_cons test (row : list (list N) * list N) rows :
  count_rows test (row :: rows)
  = ((if test (fst row) then 1 else 0) + count_rows test rows)%nat.
Proof.
  unfold count_rows. destruct row as [q prefix]. cbn [filter fst].
  now destruct (test q).
Qed.

Lemma count_rows_app test rows rows' :
  count_rows test (rows ++ rows')
  = (count_rows test rows + count_rows test rows')%nat.
Proof. unfold count_rows. now rewrite filter_app, length_app. Qed.

Lemma tree_loop_count cs (entries : list entry) :
  distinct (map entry_name cs) = true ->
  forallb unique_names cs = true ->
  Forall (counts_ok kind excl) cs ->
  (forall e, In e entries -> In e cs) ->
  forall (at_path : list (list N) -> option entry) p indent len i,
    (forall rel, rel <> [] -> at_path (p ++ rel) = lookup cs rel) ->
    count_rows (fun q => match at_path q with
                         | Some e => kind e
                         | None => false
                         end)
      (tree_loop excl p indent len i
         (map (fun c => (c, subtree_of excl c)) entries))
    = list_sum (map (count_entries kind excl) entries).
Proof.
  intros Hd Hu Hcs. induction entries as [|e rest IH];
    intros Hin at_path p indent len i Hat; [reflexivity|].
  assert (Hrest : forall e', In e' rest -> In e' cs)
    by (intros e' He'; apply Hin; now right).
  assert (He : In e cs) by (apply Hin; now left).
  cbn [map tree_loop]. rewrite should_exclude_name.
  cbn [map]. rewrite list_sum_cons.
  rewrite <- (IH Hrest at_path p indent len (S i) Hat).
  assert (Hrow : at_path (p ++ [entry_name e]) = Some e).
  { rewrite (Hat [entry_name e]) by discriminate.
    now apply lookup_single. }
  destruct e as [n|n cs'|n]; cbn [count_entries entry_name is_dir] in *;
    destruct (should_exclude_directory [n] excl); try reflexivity;
    rewrite count_rows_cons; cbn [fst]; rewrite Hrow.
  - cbn [app]. lia.
  - rewrite count_rows_app.
    rewrite Forall_forall in Hcs. rewrite forallb_forall in Hu.
    rewrite (Hcs _ He (Hu _ He) at_path (p ++ [n])
               (indent ++ (if Nat.eqb i (len - 1)
                           then indent_last else indent_mid))).
    + cbn [children_of]. lia.
    + intros rel Hrel. rewrite <- app_assoc. cbn [app children_of].
      rewrite (Hat (n :: rel)) by discriminate.
      now apply lookup_below.
  - cbn [app]. lia.
Qed.

Lemma get_tree_structure_count cs :
  distinct (map entry_name cs) = true ->
  forallb unique_names cs = true ->
  Forall (counts_ok kind excl) cs ->
  forall (at_path : list (list N) -> option entry) p indent,
    (forall rel, rel <> [] -> at_path (p ++ rel) = lookup cs rel) ->
    count_rows (fun q => match at_path q with
                         | Some e => kind e
                         | None => false
                         end)
      (get_tree_structure excl p indent cs)
    = list_sum (map (count_entries kind excl) cs).
Proof.
  intros Hd Hu Hcs at_path p indent Hat.
  rewrite get_tree_structure_loop.
  rewrite (tree_loop_count cs (sorted key_leb cs) Hd Hu Hcs); [| |exact Hat].
  - apply list_sum_perm, Permutation_map.
    apply (sorted_perm key_leb).
  - intros e He. now apply In_sorted in He.
Qed.

Lemma subtree_of_count c : counts_ok kind excl c.
Proof.
  induction c as [n|n cs IH|n] using entry_ind;
    intros Hu at_path p indent Hat; try reflexivity.
  cbn [unique_names] in Hu. apply andb_true_iff in Hu as [Hd Hu].
  rewrite subtree_of_Dir. cbn [children_of] in *.
  now apply get_tree_structure_count.
Qed.

End CountFacts.

(** X20: when no directory holds a name twice, the totals on the last
    line of the tree are right: the first is the number of directories
    and the second the number of regular files that are reached without
    passing an excluded name; an entry that is neither is listed and
    counted in neither. *)
Theorem tree_totals (directory : list (list N)) (top : list entry)
    (excl : list (list N)) :
  distinct (map entry_name top) = true ->
  forallb unique_names top = true ->
  tree_text directory top excl
  = join [c_newline]
      ([lit "."]
       ++ map (fun '(p, prefix) => prefix ++ path_name p)
            (get_tree_structure excl directory [] top)
       ++ [[c_newline]
           ++ str_of_nat (list_sum (map (count_entries is_dir excl) top))
           ++ lit " directories, "
           ++ str_of_nat (list_sum (map (count_entries is_file excl) top))
           ++ lit " files"]).
Proof.
  intros Hd Hu. unfold tree_text.
  assert (Hat : forall rel, rel <> [] ->
                  lookup top (skipn (length directory) (directory ++ rel))
                  = lookup top rel).
  { intros rel _. now rewrite skipn_app, Nat.sub_diag, skipn_all. }
  assert (Hall : forall kind, Forall (counts_ok kind excl) top)
    by (intros kind; apply Forall_forall; intros c _; apply subtree_of_count).
  pose proof (get_tree_structure_count is_dir excl top Hd Hu (Hall is_dir)
                (fun q => lookup top (skipn (length directory) q))
                directory [] Hat) as Hdirs.
  pose proof (get_tree_structure_count is_file excl top Hd Hu (Hall is_file)
                (fun q => lookup top (skipn (length directory) q))
                directory [] Hat) as Hfiles.
  unfold count_rows in Hdirs, Hfiles. unfold isdir, isfile.
  rewrite Hdirs, Hfiles. now rewrite <- app_assoc.
Qed.

Lemma tree_totals_witness :
  tree_text [lit "in"] vendored_tree []
  = lit "." ++ [c_newline] ++ connector_last ++ lit "main.js" ++ [c_newline]
    ++ [c_newline] ++ lit "0 directories, 1 files".
Proof.
  rewrite (tree_totals [lit "in"] vendored_tree [] eq_refl eq_refl).
  reflexivity.
Defined.
